(** * Attendance dashboard: duration normalizer, record filter and chart
      aggregation of [App.tsx], embedded in Rocq.

    The TypeScript source works on JavaScript strings, on JavaScript numbers
    (IEEE 754 binary64) and on arrays of record objects.  The embedding keeps
    those three: strings are lists of characters, numbers are the binary64
    values of [SpecFloat] with its executable rounding, arrays are lists.
    The two regular expressions of the source are kept as regular expressions
    and run by a backtracking matcher, so that what the patterns do is proved
    and not assumed. *)

From Stdlib Require Import ZArith Bool Ascii String List Lia PeanoNat.
From Stdlib Require Import Floats.SpecFloat.
From Stdlib Require Import Zpower.
Import ListNotations.

Local Open Scope bool_scope.

(** ** JavaScript strings *)

Module JsString.

(** A string is its sequence of code units.  A character of the model is a
    code unit below 256 (ASCII and Latin-1), which covers every character
    the source tests for: digits, [h], [m] and white space. *)
Definition jsstring := list ascii.

(** [js "1h 30m"] is the JavaScript string literal ["1h 30m"]. *)
Definition js (s : string) : jsstring := list_ascii_of_string s.

Definition code (c : ascii) : N := N_of_ascii c.

(** [String.prototype.toLowerCase] on one code unit below 256: [A]-[Z] and
    the Latin-1 capitals U+00C0..U+00DE (U+00D7, the multiplication sign,
    apart) move up by 32; every other code unit is its own lower case. *)
Definition lower_char (c : ascii) : ascii :=
  let n := code c in
  if ((65 <=? n) && (n <=? 90))%N
     || ((192 <=? n) && (n <=? 222) && negb (n =? 215))%N
  then ascii_of_N (n + 32) else c.

Definition toLowerCase (s : jsstring) : jsstring := map lower_char s.

Fixpoint startsWith (s sub : jsstring) {struct sub} : bool :=
  match sub, s with
  | [], _ => true
  | _ :: _, [] => false
  | a :: sub', b :: s' => Ascii.eqb a b && startsWith s' sub'
  end.

(** [s.includes(sub)]: [sub] occurs in [s] at some position. *)
Fixpoint includes (s sub : jsstring) : bool :=
  startsWith s sub
  || match s with
     | [] => false
     | _ :: s' => includes s' sub
     end.

(** [s === t] on strings. *)
Fixpoint str_eqb (s t : jsstring) : bool :=
  match s, t with
  | [], [] => true
  | a :: s', b :: t' => Ascii.eqb a b && str_eqb s' t'
  | _, _ => false
  end.

End JsString.
Export JsString.

(** ** Regular expressions *)

Module RegExp.

(** The character classes of the two patterns of the source. *)

(** [\d] and [0-9]. *)
Definition is_digit (c : ascii) : bool :=
  ((48 <=? code c) && (code c <=? 57))%N.

(** [\s] below 256: TAB, LF, VT, FF, CR, SPACE and NO-BREAK SPACE. *)
Definition is_space (c : ascii) : bool :=
  let n := code c in
  (((9 <=? n) && (n <=? 13)) || (n =? 32) || (n =? 160))%N.

(** [[^0-9]]. *)
Definition not_digit (c : ascii) : bool := negb (is_digit c).

(** The fragment of the pattern language the source uses.  Quantifiers
    are the greedy ones. *)
Inductive regex : Type :=
| Chr (c : ascii)                (* a literal character *)
| Class (p : ascii -> bool)      (* a character class *)
| Seq (r1 r2 : regex)            (* r1 r2 *)
| Star (r : regex)               (* r* *)
| Opt (r : regex)                (* r? *)
| Group (i : nat) (r : regex).   (* the i-th capturing parenthesis *)

(** [r+] is [r r*]. *)
Definition Plus (r : regex) : regex := Seq r (Star r).

(** The captures: entry [i] is what group [i] matched, [None] being
    JavaScript's [undefined]; entry 0 is the whole match. *)
Definition captures := list (option jsstring).

Fixpoint set_capture (i : nat) (v : jsstring) (c : captures) : captures :=
  match i, c with
  | O, [] => [Some v]
  | O, _ :: c' => Some v :: c'
  | S i', [] => None :: set_capture i' v []
  | S i', x :: c' => x :: set_capture i' v c'
  end.

Fixpoint clear_capture (i : nat) (c : captures) : captures :=
  match i, c with
  | _, [] => []
  | O, _ :: c' => None :: c'
  | S i', x :: c' => x :: clear_capture i' c'
  end.

Fixpoint groups (r : regex) : list nat :=
  match r with
  | Chr _ | Class _ => []
  | Seq r1 r2 => groups r1 ++ groups r2
  | Star r1 | Opt r1 => groups r1
  | Group i r1 => i :: groups r1
  end.

(** On entering an iteration of a quantifier the groups inside it are
    reset. *)
Definition clear_groups (r : regex) (c : captures) : captures :=
  fold_right clear_capture c (groups r).

Definition capture (i : nat) (c : captures) : option jsstring :=
  nth i c None.

(** A matcher state: the input that is left, and the captures. *)
Definition state := (jsstring * captures)%type.
Definition cont := jsstring -> captures -> option state.

(** The part of [s] consumed when [rest] is what is left of it. *)
Definition consumed (s rest : jsstring) : jsstring :=
  firstn (length s - length rest) s.

Definition matcher := jsstring -> captures -> cont -> option state.

(** The loop of a greedy quantifier with lower bound 0: at most [max]
    iterations of [m], as many as possible first.  An iteration that
    consumes nothing is rejected, so [length s] is as good a bound as
    none. *)
Fixpoint repeat_matcher (m : matcher) (max : nat) (s : jsstring)
  (c : captures) (k : cont) {struct max} : option state :=
  match max with
  | O => k s c
  | S max' =>
      match m s c (fun s' c' =>
                     if length s' <? length s
                     then repeat_matcher m max' s' c' k
                     else None)
      with
      | Some x => Some x
      | None => k s c
      end
  end.

(** The backtracking matcher, in continuation-passing style as in the
    language definition: [rmatch r s c k] matches [r] at the front of [s]
    and hands what is left, with the captures, to [k]; when [k] fails the
    next alternative of [r] is tried. *)
Fixpoint rmatch (r : regex) (s : jsstring) (c : captures) (k : cont)
  {struct r} : option state :=
  match r with
  | Chr a =>
      match s with
      | b :: s' => if Ascii.eqb a b then k s' c else None
      | [] => None
      end
  | Class p =>
      match s with
      | b :: s' => if p b then k s' c else None
      | [] => None
      end
  | Seq r1 r2 => rmatch r1 s c (fun s' c' => rmatch r2 s' c' k)
  | Group i r1 =>
      rmatch r1 s c (fun s' c' => k s' (set_capture i (consumed s s') c'))
  | Opt r1 =>
      repeat_matcher (fun s c k => rmatch r1 s (clear_groups r1 c) k)
                     1 s c k
  | Star r1 =>
      repeat_matcher (fun s c k => rmatch r1 s (clear_groups r1 c) k)
                     (length s) s c k
  end.

(** Before an attempt every entry of the captures is [undefined]: one
    entry for the whole match and one for each group. *)
Definition no_captures (r : regex) : captures :=
  repeat None (S (list_max (groups r))).

(** One attempt at the front of [s]. *)
Definition match_here (r : regex) (s : jsstring) : option state :=
  rmatch r s (no_captures r) (fun s' c => Some (s', c)).

(** What [exec] and [String.prototype.match] return on success. *)
Record match_array : Type := {
  m_index : nat;
  elements : captures
}.

(** The search of a pattern without the [g] flag: the attempts start at
    index 0 and move right one character at a time; the first one that
    succeeds is the result. *)
Fixpoint exec_from (r : regex) (i : nat) (s : jsstring) : option match_array :=
  match match_here r s with
  | Some (rest, c) =>
      Some {| m_index := i; elements := set_capture 0 (consumed s rest) c |}
  | None =>
      match s with
      | [] => None
      | _ :: s' => exec_from r (S i) s'
      end
  end.

(** [s.match(r)]. *)
Definition String_match (s : jsstring) (r : regex) : option match_array :=
  exec_from r 0 s.

(** [m[i]] of a match array. *)
Definition element (m : match_array) (i : nat) : option jsstring :=
  capture i (elements m).

(** [s.replace(r, repl)] for a pattern with the [g] flag and a replacement
    text without [$]: every match, left to right, is replaced; an empty
    match is stepped over by one character. *)
Fixpoint replace_loop (fuel : nat) (r : regex) (repl s : jsstring) : jsstring :=
  match fuel with
  | O => s
  | S fuel' =>
      match match_here r s with
      | Some (rest, _) =>
          if length rest <? length s
          then repl ++ replace_loop fuel' r repl rest
          else match s with
               | [] => repl
               | a :: s' => repl ++ a :: replace_loop fuel' r repl s'
               end
      | None =>
          match s with
          | [] => []
          | a :: s' => a :: replace_loop fuel' r repl s'
          end
      end
  end.

Definition String_replace_all (s : jsstring) (r : regex) (repl : jsstring)
  : jsstring :=
  replace_loop (S (length s)) r repl s.

End RegExp.
Export RegExp.

(** ** JavaScript numbers *)

Module JsNumber.

(** A number is an IEEE 754 binary64 value; the arithmetic is that of
    [SpecFloat], rounding to nearest, ties to even. *)
Definition number := spec_float.

Definition prec : Z := 53.
Definition emax : Z := 1024.

(** The number written as the integer literal [z]: the binary64 value
    nearest to [z]. *)
Definition of_Z (z : Z) : number := binary_normalize prec emax z 0 false.

Definition zero : number := S754_zero false.

Definition add (x y : number) : number := SFadd prec emax x y.
Definition mul (x y : number) : number := SFmul prec emax x y.

(** [Number.isNaN]. *)
Definition isNaN (x : number) : bool :=
  match x with
  | S754_nan => true
  | _ => false
  end.

(** [Number.isInteger]: finite, and without a fractional part. *)
Definition isInteger (x : number) : bool :=
  match x with
  | S754_zero _ => true
  | S754_finite _ m e => (0 <=? e)%Z || (Zpos m mod 2 ^ (- e) =? 0)%Z
  | _ => false
  end.

(** [x >= 0]. *)
Definition geq_zero (x : number) : bool := SFleb zero x.

Definition digit_value (c : ascii) : Z := Z.of_N (code c) - 48.

(** The integer a run of decimal digits denotes. *)
Definition decimal_value (s : jsstring) : Z :=
  fold_left (fun acc c => 10 * acc + digit_value c)%Z s 0%Z.

(** The conversion of a string to a number, on the two forms the source
    converts: the empty string is [+0], and a run of decimal digits is the
    number nearest to the integer it denotes.  Every other text is
    answered with [NaN]; the source never passes one (lemma
    [StringToNumber_digits]). *)
Definition StringToNumber (s : jsstring) : number :=
  if forallb is_digit s then of_Z (decimal_value s) else S754_nan.

End JsNumber.
Export JsNumber.

(** ** The values of the loosely typed duration field *)

(** [time_spent: string | number | null]; the source tests for [undefined]
    as well. *)
Inductive jsvalue : Type :=
| Null
| Undefined
| Num (n : number)
| Str (s : jsstring).

(** Truthiness of a value, as [||] tests it. *)
Definition truthy (v : jsvalue) : bool :=
  match v with
  | Null | Undefined => false
  | Num (S754_zero _) | Num S754_nan => false
  | Num _ => true
  | Str [] => false
  | Str (_ :: _) => true
  end.

(** [a || b]. *)
Definition or_else (a b : jsvalue) : jsvalue := if truthy a then a else b.

(** [Number(v)]. *)
Definition Number (v : jsvalue) : number :=
  match v with
  | Null => zero
  | Undefined => S754_nan
  | Num n => n
  | Str s => StringToNumber s
  end.

(** An element of a match array as a value. *)
Definition element_value (m : match_array) (i : nat) : jsvalue :=
  match element m i with
  | Some s => Str s
  | None => Undefined
  end.

(** ** The duration normalizer *)

(** The pattern [/(\d+)h\s*(\d+)?m?/]. *)
Definition hm_pattern : regex :=
  Seq (Group 1 (Plus (Class is_digit)))
 (Seq (Chr "h")
 (Seq (Star (Class is_space))
 (Seq (Opt (Group 2 (Plus (Class is_digit))))
      (Opt (Chr "m"))))).

(** The pattern [/[^0-9]/g]. *)
Definition non_digit_pattern : regex := Class not_digit.

(** [[
function parseMinutes(value: string | number | null): number {
  if (value === null || value === undefined) return 0;
  if (typeof value === "number") return value;
  const str = String(value).toLowerCase();
  if (str.includes("h")) {
    const match = str.match(/(\d+)h\s*(\d+)?m?/);
    if (!match) return 0;
    const h = Number(match[1] || 0);
    const m = Number(match[2] || 0);
    return h * 60 + m;
  }
  const num = Number(str.replace(/[^0-9]/g, ""));
  return Number.isNaN(num) ? 0 : num;
}
]] *)
Definition parseMinutes (v : jsvalue) : number :=
  match v with
  | Null | Undefined => zero
  | Num n => n
  | Str s =>
      let str := toLowerCase s in
      if includes str (js "h") then
        match String_match str hm_pattern with
        | None => zero
        | Some m =>
            let h := Number (or_else (element_value m 1) (Num zero)) in
            let m := Number (or_else (element_value m 2) (Num zero)) in
            add (mul h (of_Z 60)) m
        end
      else
        let num := Number (Str (String_replace_all str non_digit_pattern [])) in
        if isNaN num then zero else num
  end.

(** ** Attendance records *)

(** [[
type AttendanceRecord = {
  id: number; student_id: number; student_name: string; status: string;
  parent_notified: boolean; checkin_time: string | null;
  checkout_time: string | null; time_spent: string | number | null;
  date: string | null;
};
]] *)
Record AttendanceRecord : Type := {
  id : number;
  student_id : number;
  student_name : jsstring;
  status : jsstring;
  parent_notified : bool;
  checkin_time : option jsstring;
  checkout_time : option jsstring;
  time_spent : jsvalue;
  date : option jsstring
}.

(** ** The filter of the current records *)

(** The body of the callback of [currentRecords.filter], with the three
    pieces of filter state it reads. *)
Definition filter_row (currentSearch currentStatusFilter currentNotifiedFilter
                         : jsstring) (row : AttendanceRecord) : bool :=
  let matchesSearch :=
    includes (toLowerCase (student_name row)) (toLowerCase currentSearch) in
  let matchesStatus :=
    str_eqb currentStatusFilter (js "all")
    || str_eqb (status row) currentStatusFilter in
  let matchesNotified :=
    str_eqb currentNotifiedFilter (js "all")
    || (str_eqb currentNotifiedFilter (js "yes") && parent_notified row)
    || (str_eqb currentNotifiedFilter (js "no") && negb (parent_notified row)) in
  matchesSearch && matchesStatus && matchesNotified.

Definition filteredCurrentRecords
  (currentRecords : list AttendanceRecord)
  (currentSearch currentStatusFilter currentNotifiedFilter : jsstring)
  : list AttendanceRecord :=
  filter (filter_row currentSearch currentStatusFilter currentNotifiedFilter)
         currentRecords.

(** ** The chart aggregation *)

(** The accumulator of the [reduce] of [statusChartData].  A counter goes up
    by one per record at most and an array holds fewer than [2^32] records,
    far below [2^53], so the counters are exact integers. *)
Record counts : Type := {
  checkedIn : Z;
  checkedOut : Z;
  notified : Z
}.

Definition initial_counts : counts :=
  {| checkedIn := 0; checkedOut := 0; notified := 0 |}.

(** The callback of the [reduce]: three independent [if]s on one record. *)
Definition count_row (acc : counts) (row : AttendanceRecord) : counts :=
  let acc :=
    if str_eqb (status row) (js "checked_in")
    then {| checkedIn := checkedIn acc + 1;
            checkedOut := checkedOut acc;
            notified := notified acc |}
    else acc in
  let acc :=
    if str_eqb (status row) (js "checked_out")
    then {| checkedIn := checkedIn acc;
            checkedOut := checkedOut acc + 1;
            notified := notified acc |}
    else acc in
  let acc :=
    if parent_notified row
    then {| checkedIn := checkedIn acc;
            checkedOut := checkedOut acc;
            notified := notified acc + 1 |}
    else acc in
  acc.

(** [selectedDate ? historyRecords : filteredCurrentRecords], with
    [selectedDate: string | null]. *)
Definition chart_source (selectedDate : option jsstring)
  (historyRecords filtered : list AttendanceRecord) : list AttendanceRecord :=
  let selected :=
    match selectedDate with
    | Some d => Str d
    | None => Null
    end in
  if truthy selected then historyRecords else filtered.

Definition status_counts (source : list AttendanceRecord) : counts :=
  fold_left count_row source initial_counts.

Module Bar.
(** An entry of the status chart, [{ name, value }]. *)
Record t : Type := { name : jsstring; value : Z }.
End Bar.

Module Point.
(** An entry of the time chart, [{ name, minutes }]. *)
Record t : Type := { name : jsstring; minutes : number }.
End Point.

Definition statusChartData (selectedDate : option jsstring)
  (historyRecords filtered : list AttendanceRecord) : list Bar.t :=
  let source := chart_source selectedDate historyRecords filtered in
  let counts := status_counts source in
  [ {| Bar.name := js "Checked In"; Bar.value := checkedIn counts |};
    {| Bar.name := js "Checked Out"; Bar.value := checkedOut counts |};
    {| Bar.name := js "Notified"; Bar.value := notified counts |} ].

Definition duration_point (row : AttendanceRecord) : Point.t :=
  {| Point.name := student_name row;
     Point.minutes := parseMinutes (time_spent row) |}.

Definition timeChartData (selectedDate : option jsstring)
  (historyRecords filtered : list AttendanceRecord) : list Point.t :=
  let source := chart_source selectedDate historyRecords filtered in
  map duration_point source.

(** The aggregator of the specification, [aggregate(records)]: the summary
    of [statusChartData] and the points of [timeChartData], both computed
    from the same record list (the current records when no date is
    selected). *)
Definition aggregate (records : list AttendanceRecord)
  : counts * list Point.t :=
  (status_counts (chart_source None [] records),
   timeChartData None [] records).

(** ** The scenario of the specification *)

Definition Ann : AttendanceRecord :=
  {| id := of_Z 1; student_id := of_Z 11; student_name := js "Ann";
     status := js "checked_in"; parent_notified := true;
     checkin_time := None; checkout_time := None;
     time_spent := Str (js "1h 15m"); date := None |}.

Definition Bo : AttendanceRecord :=
  {| id := of_Z 2; student_id := of_Z 12; student_name := js "Bo";
     status := js "checked_out"; parent_notified := false;
     checkin_time := None; checkout_time := None;
     time_spent := Num (of_Z 30); date := None |}.

(** * Reference definitions

    What the specification says in words, written down on its own so that
    the code above can be compared with it. *)

Module Reference.

(** The longest front of [s] inside a class, and what follows it. *)
Fixpoint take_while (p : ascii -> bool) (s : jsstring) : jsstring :=
  match s with
  | b :: s' => if p b then b :: take_while p s' else []
  | [] => []
  end.

Fixpoint drop_while (p : ascii -> bool) (s : jsstring) : jsstring :=
  match s with
  | b :: s' => if p b then drop_while p s' else s
  | [] => []
  end.

Definition head_is (p : ascii -> bool) (s : jsstring) : bool :=
  match s with
  | b :: _ => p b
  | [] => false
  end.

(** [s] without a leading [a], when it has one. *)
Definition skip_char (a : ascii) (s : jsstring) : jsstring :=
  match s with
  | b :: s' => if Ascii.eqb a b then s' else s
  | [] => s
  end.

Definition digits (s : jsstring) : Prop := forallb is_digit s = true.
Definition blanks (s : jsstring) : Prop := forallb is_space s = true.

(** The text holds the letter [h], in either case. *)
Definition contains_letter_h (s : jsstring) : Prop :=
  exists c, In c s /\ (c = "h"%char \/ c = "H"%char).

(** [sub] occurs in [s]. *)
Definition is_substring (sub s : jsstring) : Prop :=
  exists pre post, s = pre ++ sub ++ post.

(** An hour marker, [<digits>h], starts at the front of [t]. *)
Definition hour_start (t : jsstring) : Prop :=
  exists d rest, d <> [] /\ digits d /\ t = d ++ "h"%char :: rest.

(** [str] read with the pattern [<digits>h<white space><digits>m?]:
    [hs] is the hour component, [ws] the white space after the [h], [ms]
    the minute component (empty when there is none) and [tail] what
    follows it.  The hour marker is the leftmost one of [str], and the
    white space and the minute digits are taken as far as they go. *)
Record hm_shape (str pre hs ws ms tail : jsstring) : Prop := {
  shape_text : str = pre ++ hs ++ "h"%char :: ws ++ ms ++ tail;
  shape_hours : hs <> [] /\ digits hs;
  shape_gap : blanks ws;
  shape_minutes : digits ms;
  shape_leftmost :
    forall p1 p2, pre = p1 ++ p2 -> p2 <> [] ->
                  ~ hour_start (p2 ++ hs ++ "h"%char :: ws ++ ms ++ tail);
  shape_gap_longest : head_is is_space (ms ++ tail) = false;
  shape_minutes_longest : head_is is_digit tail = false
}.

(** [hours * 60 + minutes], in the arithmetic of numbers; an absent
    minute component counts as 0. *)
Definition hours_minutes (hs ms : jsstring) : number :=
  add (mul (of_Z (decimal_value hs)) (of_Z 60))
      (match ms with
       | [] => zero
       | _ :: _ => of_Z (decimal_value ms)
       end).

(** The pattern read at the front of [s] by a scan from left to right:
    the hour digits, the minute digits, and what is left. *)
Definition hm_here (s : jsstring) : option (jsstring * jsstring * jsstring) :=
  match take_while is_digit s, drop_while is_digit s with
  | _ :: _, c :: r2 =>
      if Ascii.eqb "h" c then
        let r3 := drop_while is_space r2 in
        Some (take_while is_digit s, take_while is_digit r3,
              skip_char "m" (drop_while is_digit r3))
      else None
  | _, _ => None
  end.

(** The first position of [s] where the pattern can be read. *)
Fixpoint hm_scan (s : jsstring) : option (jsstring * jsstring * jsstring) :=
  match hm_here s with
  | Some x => Some x
  | None =>
      match s with
      | [] => None
      | _ :: s' => hm_scan s'
      end
  end.

(** A text from which no duration can be read: with an [h] in it, no hour
    marker anywhere; without, no digit at all. *)
Definition unparseable (s : jsstring) : Prop :=
  (contains_letter_h s /\
   forall p t, toLowerCase s = p ++ t -> ~ hour_start t)
  \/ (~ contains_letter_h s /\ filter is_digit s = []).

(** A number that is an integer and not below zero. *)
Definition nonneg_integer (x : number) : bool := isInteger x && geq_zero x.

(** The number of records that satisfy [p]. *)
Definition tally (p : AttendanceRecord -> bool) (R : list AttendanceRecord)
  : Z :=
  Z.of_nat (length (filter p R)).

Definition is_checked_in (row : AttendanceRecord) : bool :=
  str_eqb (status row) (js "checked_in").

Definition is_checked_out (row : AttendanceRecord) : bool :=
  str_eqb (status row) (js "checked_out").

(** The three predicates of the record filter, in the words of the
    specification. *)
Definition matches_search (search : jsstring) (row : AttendanceRecord)
  : Prop :=
  is_substring (toLowerCase search) (toLowerCase (student_name row)).

Definition matches_status (selected : jsstring) (row : AttendanceRecord)
  : Prop :=
  selected = js "all" \/ status row = selected.

Definition matches_notified (selected : jsstring) (row : AttendanceRecord)
  : Prop :=
  selected = js "all"
  \/ (selected = js "yes" /\ parent_notified row = true)
  \/ (selected = js "no" /\ parent_notified row = false).

End Reference.
Export Reference.

(** ** Definitions used by the proofs *)

(** The value [m * 2^e] is an integer. *)
Definition integral (m e : Z) : Prop := (0 <= e \/ (2 ^ (- e) | m))%Z.

(** A number that is [+0], a positive integer or [+Infinity]. *)
Definition nonneg_integral (x : number) : Prop :=
  match x with
  | S754_zero s => s = false
  | S754_infinity s => s = false
  | S754_nan => False
  | S754_finite s m e => s = false /\ integral (Zpos m) e
  end.

Definition exact_record (m : Z) : shr_record :=
  {| shr_m := m; shr_r := false; shr_s := false |}.

(** What a greedy loop over one character class amounts to: the longest
    run first, then each shorter one. *)
Fixpoint greedy (p : ascii -> bool) (s : jsstring) (c : captures) (k : cont)
  : option state :=
  match s with
  | b :: s' =>
      if p b then
        match greedy p s' c k with
        | Some x => Some x
        | None => k s c
        end
      else k s c
  | [] => k s c
  end.

Definition class_matcher (p : ascii -> bool) : matcher :=
  fun s c k => rmatch (Class p) s (clear_groups (Class p) c) k.

Definition optional (ms : jsstring) : option jsstring :=
  match ms with
  | [] => None
  | _ :: _ => Some ms
  end.

(** The captures after a match of [hm_pattern]. *)
Definition hm_captures (hs ms : jsstring) : captures :=
  [None; Some hs; optional ms].

(** * The rest of the dashboard *)

(** ** The CSV export of the history *)

(** The characters of the CSV text: the double quote, the comma and the
    line feed. *)
Definition dquote : ascii := "034"%char.
Definition comma : ascii := ","%char.
Definition newline : ascii := "010"%char.

(** [a.join(sep)] on an array of strings. *)
Fixpoint join (sep : jsstring) (a : list jsstring) : jsstring :=
  match a with
  | [] => []
  | x :: a' =>
      match a' with
      | [] => x
      | _ :: _ => x ++ sep ++ join sep a'
      end
  end.

(** [v ?? d]. *)
Definition nullish (v d : jsvalue) : jsvalue :=
  match v with
  | Null | Undefined => d
  | _ => v
  end.

(** [s ?? d] on a field of type [string | null]. *)
Definition nullish_string (s : option jsstring) (d : jsstring) : jsvalue :=
  match s with
  | Some s => Str s
  | None => Str d
  end.

(** The pattern of one double quote, with the [g] flag. *)
Definition quote_pattern : regex := Chr dquote.

(** What the download hands to the browser: the text of the blob and the
    file name of the link. *)
Record download : Type := {
  content : jsstring;
  filename : jsstring
}.

Section Csv.

(** The text of a number, [String(n)]; the source leaves it to the
    language, and so does the model. *)
Variable numberToString : number -> jsstring.

(** [String(v)]. *)
Definition ToString (v : jsvalue) : jsstring :=
  match v with
  | Null => js "null"
  | Undefined => js "undefined"
  | Num n => numberToString n
  | Str s => s
  end.

Definition csv_headers : list jsvalue :=
  [ Str (js "student_name"); Str (js "status"); Str (js "parent_notified");
    Str (js "time_spent"); Str (js "checkin_time"); Str (js "checkout_time");
    Str (js "date") ].

Definition csv_row (row : AttendanceRecord) : list jsvalue :=
  [ Str (student_name row);
    Str (status row);
    Str (if parent_notified row then js "true" else js "false");
    nullish (time_spent row) (Str []);
    nullish_string (checkin_time row) [];
    nullish_string (checkout_time row) [];
    nullish_string (date row) [] ].

Definition csv_cell (value : jsvalue) : jsstring :=
  let text := String_replace_all (ToString value) quote_pattern [dquote; dquote] in
  dquote :: text ++ [dquote].

Definition csv_line (line : list jsvalue) : jsstring :=
  join [comma] (map csv_cell line).

Definition csv_text (historyRecords : list AttendanceRecord) : jsstring :=
  join [newline] (map csv_line (csv_headers :: map csv_row historyRecords)).

Definition downloadHistoryCsv (selectedDate : option jsstring)
  (historyRecords : list AttendanceRecord) : option download :=
  match selectedDate with
  | None => None
  | Some d =>
      if negb (truthy (Str d)) || (length historyRecords =? 0) then None
      else Some {| content := csv_text historyRecords;
                   filename := js "attendance_" ++ d ++ js ".csv" |}
  end.

End Csv.

(** A reader of CSV text, to read the export back with: fields are
    separated by commas and records by line feeds; a field in double quotes
    runs to its closing quote, a doubled quote inside it standing for one
    quote. *)
Inductive csv_state : Type :=
| FieldStart | Unquoted | Quoted | AfterQuote.

Definition end_field (field : jsstring) (row : list jsstring) : list jsstring :=
  rev field :: row.

Definition end_record (field : jsstring) (row : list jsstring)
  (rows : list (list jsstring)) : list (list jsstring) :=
  rev (end_field field row) :: rows.

Fixpoint read_csv_from (s : jsstring) (st : csv_state) (field : jsstring)
  (row : list jsstring) (rows : list (list jsstring))
  : option (list (list jsstring)) :=
  match s with
  | [] =>
      match st with
      | Quoted => None
      | _ => Some (rev (end_record field row rows))
      end
  | c :: s' =>
      match st with
      | FieldStart | Unquoted =>
          if Ascii.eqb c comma
          then read_csv_from s' FieldStart [] (end_field field row) rows
          else if Ascii.eqb c newline
          then read_csv_from s' FieldStart [] [] (end_record field row rows)
          else if Ascii.eqb c dquote
          then match st with
               | FieldStart => read_csv_from s' Quoted [] row rows
               | _ => None
               end
          else read_csv_from s' Unquoted (c :: field) row rows
      | Quoted =>
          if Ascii.eqb c dquote
          then read_csv_from s' AfterQuote field row rows
          else read_csv_from s' Quoted (c :: field) row rows
      | AfterQuote =>
          if Ascii.eqb c dquote
          then read_csv_from s' Quoted (dquote :: field) row rows
          else if Ascii.eqb c comma
          then read_csv_from s' FieldStart [] (end_field field row) rows
          else if Ascii.eqb c newline
          then read_csv_from s' FieldStart [] [] (end_record field row rows)
          else None
      end
  end.

Definition read_csv (s : jsstring) : option (list (list jsstring)) :=
  read_csv_from s FieldStart [] [] [].

(** [s] with every double quote doubled. *)
Definition double_quotes (s : jsstring) : jsstring :=
  flat_map (fun c => if Ascii.eqb dquote c then [dquote; dquote] else [c]) s.

(** ** The style of the chart container *)

Module ChartStyle.

(** An entry of a chart configuration, [{ label?, color? }]; the type of
    the label is left open. *)
Record entry (L : Type) : Type := {
  label : option L;
  color : option jsstring
}.
Arguments label {L} _.
Arguments color {L} _.

(** An object with string keys: its properties, in the order in which
    [Object.keys] lists them. *)
Definition object (V : Type) : Type := list (jsstring * V).

(** [o[k]]. *)
Fixpoint get {V : Type} (o : object V) (k : jsstring) : option V :=
  match o with
  | [] => None
  | (k', v) :: o' => if str_eqb k' k then Some v else get o' k
  end.

(** [o[k] = v]. *)
Fixpoint set {V : Type} (o : object V) (k : jsstring) (v : V) : object V :=
  match o with
  | [] => [(k, v)]
  | (k', v') :: o' =>
      if str_eqb k' k then (k', v) :: o' else (k', v') :: set o' k v
  end.

(** [Object.keys(o)]. *)
Definition keys {V : Type} (o : object V) : list jsstring := map fst o.

(** The name of the style variable of a key. *)
Definition variable (key : jsstring) : jsstring := js "--color-" ++ key.

(** The callback of the [reduce] of [ChartContainer]. *)
Definition style_step {L : Type} (config : object (entry L))
  (acc : object jsstring) (key : jsstring) : object jsstring :=
  let color :=
    match get config key with
    | Some e => color e
    | None => None
    end in
  match color with
  | Some c => if truthy (Str c) then set acc (variable key) c else acc
  | None => acc
  end.

(** The [style] of the container: [Object.keys(config).reduce(..., {})]. *)
Definition style {L : Type} (config : object (entry L)) : object jsstring :=
  fold_left (style_step config) (keys config) [].

(** The color a key is configured with: present and not empty. *)
Definition configured_color {L : Type} (config : object (entry L))
  (key : jsstring) : option jsstring :=
  match get config key with
  | Some e =>
      match color e with
      | Some (c :: cs) => Some (c :: cs)
      | _ => None
      end
  | None => None
  end.

End ChartStyle.

(** ** The integer a number is *)

(** [m * 2^e] is the integer [v]. *)
Definition represents (m e v : Z) : Prop :=
  (0 <= e /\ v = m * 2 ^ e)%Z \/ (e < 0 /\ m = v * 2 ^ (- e))%Z.

(** The number [x] is exactly the integer [v]. *)
Definition exactly (x : number) (v : Z) : Prop :=
  match x with
  | S754_zero s => s = false /\ v = 0%Z
  | S754_finite s m e => s = false /\ represents (Zpos m) e v
  | _ => False
  end.

(** The integer a number is, when it is one. *)
Definition to_Z (x : number) : option Z :=
  match x with
  | S754_zero _ => Some 0%Z
  | S754_finite s m e =>
      if (0 <=? e)%Z then Some (cond_Zopp s (Zpos m * 2 ^ e))
      else if (Zpos m mod 2 ^ (- e) =? 0)%Z
           then Some (cond_Zopp s (Zpos m / 2 ^ (- e)))
           else None
  | _ => None
  end.

(** * Proofs *)

(** ** Rounding keeps integers integers *)

Section Rounding.

Local Open Scope Z_scope.

Lemma integral_cases m e :
  integral m e -> 0 <= e \/ (e < 0 /\ (2 ^ (- e) | m)).
Proof.
  intros [H | H]; [left; exact H |].
  destruct (Z_le_gt_dec 0 e); [left; assumption | right; split; [lia | exact H]].
Qed.

Lemma iter_pos_nat (A : Type) (f : A -> A) (p : positive) (x : A) :
  iter_pos f p x = Nat.iter (Pos.to_nat p) f x.
Proof.
  revert x. induction p as [p IH | p IH |]; intro x.
  - rewrite Pos2Nat.inj_xI. cbn [iter_pos]. rewrite !IH.
    replace (S (2 * Pos.to_nat p))%nat with (Pos.to_nat p + (Pos.to_nat p + 1))%nat by lia.
    rewrite !Nat.iter_add. reflexivity.
  - rewrite Pos2Nat.inj_xO. cbn [iter_pos]. rewrite !IH.
    replace (2 * Pos.to_nat p)%nat with (Pos.to_nat p + Pos.to_nat p)%nat by lia.
    rewrite Nat.iter_add. reflexivity.
  - reflexivity.
Qed.

Lemma shr_1_nonneg mrs : 0 <= shr_m mrs -> 0 <= shr_m (shr_1 mrs).
Proof.
  destruct mrs as [m r s]. simpl.
  destruct m as [| [p | p |] | p]; simpl; lia.
Qed.

Lemma shr_1_even m :
  0 <= m -> (2 | m) -> shr_1 (exact_record m) = exact_record (m / 2).
Proof.
  intros Hm [k Hk]. subst m.
  rewrite Z.div_mul by lia. rewrite (Z.mul_comm k 2) in *.
  destruct k as [| k | k]; [reflexivity | reflexivity | lia].
Qed.

Lemma iter_shr_1_nonneg n mrs :
  0 <= shr_m mrs -> 0 <= shr_m (Nat.iter n shr_1 mrs).
Proof.
  intro H. induction n as [| n IH]; simpl; [exact H | now apply shr_1_nonneg].
Qed.

Lemma iter_shr_1_exact n m :
  0 <= m -> (2 ^ Z.of_nat n | m) ->
  Nat.iter n shr_1 (exact_record m) = exact_record (m / 2 ^ Z.of_nat n).
Proof.
  intro Hm. induction n as [| n IH]; intro Hd.
  - simpl. now rewrite Z.div_1_r.
  - rewrite Nat2Z.inj_succ, Z.pow_succ_r in * by lia.
    destruct Hd as [k Hk].
    rewrite Nat.iter_succ, IH by (exists (k * 2); subst m; ring).
    rewrite shr_1_even.
    + rewrite Z.div_div; [| apply Z.pow_nonzero; lia | lia]. unfold exact_record. f_equal. f_equal. ring.
    + apply Z.div_pos; [lia | apply Z.pow_pos_nonneg; lia].
    + exists k. subst m.
      replace (k * (2 * 2 ^ Z.of_nat n)) with (k * 2 * 2 ^ Z.of_nat n) by ring.
      rewrite Z.div_mul; [ring | apply Z.pow_nonzero; lia].
Qed.

(** Shifting an exact record right keeps an integral value integral, and
    exact as long as the exponent stays negative. *)
Lemma shr_integral m e n :
  0 <= m -> integral m e ->
  let '(mrs, e2) := shr (exact_record m) e n in
  0 <= shr_m mrs /\ integral (shr_m mrs) e2 /\
  (e2 < 0 -> loc_of_shr_record mrs = loc_Exact).
Proof.
  intros Hm Hi. destruct n as [| p | p]; simpl.
  - repeat split; auto.
  - rewrite iter_pos_nat. split; [| split].
    + apply iter_shr_1_nonneg. exact Hm.
    + destruct (Z_le_gt_dec 0 (e + Z.pos p)) as [Hle | Hgt]; [left; exact Hle |].
      destruct Hi as [Hi | [k Hk]]; [lia |].
      assert (Hsplit : 2 ^ (- e) = 2 ^ (- (e + Z.pos p)) * 2 ^ Z.pos p).
      { rewrite <- Z.pow_add_r by lia. f_equal. lia. }
      rewrite iter_shr_1_exact; [| exact Hm |].
      * right. simpl. rewrite positive_nat_Z. exists k. subst m.
        rewrite Hsplit, Z.mul_assoc, Z.div_mul; [reflexivity |].
        apply Z.pow_nonzero; lia.
      * rewrite positive_nat_Z. exists (k * 2 ^ (- (e + Z.pos p))). rewrite Hk, Hsplit. ring.
    + intro Hneg. destruct Hi as [Hi | [k Hk]]; [lia |].
      rewrite iter_shr_1_exact; [reflexivity | exact Hm |].
      rewrite positive_nat_Z. exists (k * 2 ^ (- (e + Z.pos p))).
      rewrite Hk. rewrite <- Z.mul_assoc, <- Z.pow_add_r by lia. f_equal. f_equal. lia.
  - repeat split; auto.
Qed.

Lemma round_nearest_even_nonneg m l : 0 <= m -> 0 <= round_nearest_even m l.
Proof.
  intro H. destruct l as [| []]; simpl; try lia.
  destruct (Z.even m); lia.
Qed.

Lemma binary_round_aux_integral m e :
  0 <= m -> integral m e ->
  nonneg_integral (binary_round_aux prec emax false m e loc_Exact).
Proof.
  intros Hm Hi. unfold binary_round_aux, shr_fexp.
  change (shr_record_of_loc m loc_Exact) with (exact_record m).
  pose proof (shr_integral m e (fexp prec emax (Zdigits2 m + e) - e) Hm Hi) as H1.
  destruct (shr (exact_record m) e (fexp prec emax (Zdigits2 m + e) - e)) as [mrs1 e1].
  destruct H1 as (Hm1 & Hi1 & Hl1).
  set (m1 := round_nearest_even (shr_m mrs1) (loc_of_shr_record mrs1)).
  assert (Hm1' : 0 <= m1) by (apply round_nearest_even_nonneg; exact Hm1).
  assert (Hi1' : integral m1 e1).
  { destruct (Z_le_gt_dec 0 e1) as [Hle | Hgt]; [left; exact Hle |].
    unfold m1. rewrite Hl1 by lia. exact Hi1. }
  change (shr_record_of_loc m1 loc_Exact) with (exact_record m1).
  pose proof (shr_integral m1 e1 (fexp prec emax (Zdigits2 m1 + e1) - e1) Hm1' Hi1') as H2.
  destruct (shr (exact_record m1) e1 (fexp prec emax (Zdigits2 m1 + e1) - e1)) as [mrs2 e2].
  destruct H2 as (Hm2 & Hi2 & _).
  destruct (shr_m mrs2) as [| p | p]; [reflexivity | | simpl; lia].
  destruct (e2 <=? emax - prec); simpl; [split; [reflexivity | exact Hi2] | reflexivity].
Qed.

Lemma shl_align_integral m e e' :
  integral (Zpos m) e ->
  integral (Zpos (fst (shl_align m e e'))) (snd (shl_align m e e')).
Proof.
  intro Hi. unfold shl_align.
  destruct (e' - e) as [| d | d] eqn:Hd; simpl; try exact Hi.
  change (Pos.iter xO m d) with (shift_pos d m).
  assert (He : e' = e - Zpos d) by lia. clear Hd.
  rewrite shift_pos_correct. change (Zpower_pos 2 d) with (2 ^ Zpos d).
  destruct (Z_le_gt_dec 0 e') as [Hle | Hgt]; [left; exact Hle | right].
  destruct (integral_cases _ _ Hi) as [He0 | [He0 [k Hk]]].
  - exists (2 ^ e * Zpos m).
    replace (Zpos d) with (e + - e') at 1 by lia.
    rewrite Z.pow_add_r by lia. ring.
  - exists k. rewrite Hk.
    replace (- e') with (Zpos d + - e) by lia.
    rewrite Z.pow_add_r by lia. ring.
Qed.

Lemma binary_round_integral m e :
  integral (Zpos m) e -> nonneg_integral (binary_round prec emax false m e).
Proof.
  intro Hi. unfold binary_round.
  pose proof (shl_align_integral m e (fexp prec emax (Zpos (digits2_pos m) + e)) Hi) as H.
  destruct (shl_align m e (fexp prec emax (Zpos (digits2_pos m) + e))) as [mz ez].
  apply binary_round_aux_integral; [lia | exact H].
Qed.

Lemma of_Z_nonneg_integral z : 0 <= z -> nonneg_integral (of_Z z).
Proof.
  intro Hz. unfold of_Z, binary_normalize.
  destruct z as [| p | p]; [reflexivity | | lia].
  apply binary_round_integral. left. lia.
Qed.

Lemma shl_align_snd_min mx ex ey :
  snd (shl_align mx ex (Z.min ex ey)) = Z.min ex ey.
Proof.
  unfold shl_align. destruct (Z.min ex ey - ex) eqn:H; simpl; lia.
Qed.

Lemma add_nonneg_integral x y : nonneg_integral x -> nonneg_integral y -> nonneg_integral (add x y).
Proof.
  destruct x as [sx | sx | | sx mx ex]; destruct y as [sy | sy | | sy my ey];
    simpl; try tauto; try (intros; subst; simpl; tauto).
  intros [-> Hx] [-> Hy]. simpl.
  pose proof (shl_align_integral mx ex (Z.min ex ey) Hx) as Hx'.
  pose proof (shl_align_integral my ey (Z.min ex ey) Hy) as Hy'.
  rewrite shl_align_snd_min in Hx'.
  rewrite Z.min_comm in Hy' |- *. rewrite shl_align_snd_min in Hy'.
  rewrite (Z.min_comm ey ex) in *.
  apply binary_round_integral.
  destruct Hx' as [H | [k1 H1]]; [left; exact H |].
  destruct Hy' as [H | [k2 H2]]; [left; exact H |].
  right. exists (k1 + k2). rewrite Pos2Z.inj_add, H1, H2. ring.
Qed.

Lemma mul_nonneg_integral x m e :
  nonneg_integral x -> integral (Zpos m) e ->
  nonneg_integral (mul x (S754_finite false m e)).
Proof.
  destruct x as [sx | sx | | sx mx ex]; simpl; try tauto;
    try (intros -> _; reflexivity).
  intros [-> Hx] Hy. simpl.
  apply binary_round_aux_integral; [lia |].
  rewrite Pos2Z.inj_mul.
  destruct (Z_le_gt_dec 0 (ex + e)) as [Hle | Hgt]; [left; exact Hle | right].
  destruct (integral_cases _ _ Hx) as [Hx0 | [Hx0 [k1 H1]]];
    destruct (integral_cases _ _ Hy) as [Hy0 | [Hy0 [k2 H2]]].
  - lia.
  - exists (Zpos mx * k2 * 2 ^ ex). rewrite H2.
    replace (- e) with (- (ex + e) + ex) by lia.
    rewrite Z.pow_add_r by lia. ring.
  - exists (Zpos m * k1 * 2 ^ e). rewrite H1.
    replace (- ex) with (- (ex + e) + e) by lia.
    rewrite Z.pow_add_r by lia. ring.
  - exists (k1 * k2). rewrite H1, H2.
    replace (- (ex + e)) with (- ex + - e) by lia.
    rewrite Z.pow_add_r by lia. ring.
Qed.

Lemma mul_60_nonneg_integral x :
  nonneg_integral x -> nonneg_integral (mul x (of_Z 60)).
Proof.
  intro Hx.
  change (of_Z 60) with (S754_finite false 8444249301319680 (-47)).
  apply mul_nonneg_integral; [exact Hx |].
  right. exists 60. reflexivity.
Qed.

Lemma nonneg_integral_not_nan x : nonneg_integral x -> isNaN x = false.
Proof. destruct x; simpl; tauto. Qed.

(** A number of that kind is what [Number.isInteger] and [>= 0] accept,
    unless it is [+Infinity]. *)
Lemma nonneg_integral_cases x :
  nonneg_integral x ->
  x = S754_infinity false \/ nonneg_integer x = true.
Proof.
  destruct x as [s | s | | s m e]; simpl.
  - intros ->. right. reflexivity.
  - intros ->. left. reflexivity.
  - tauto.
  - intros [-> Hi]. right. unfold nonneg_integer, isInteger, geq_zero.
    rewrite andb_true_iff. split; [| reflexivity].
    destruct (integral_cases _ _ Hi) as [He | [He Hd]].
    + apply orb_true_iff. left. now apply Z.leb_le.
    + apply orb_true_iff. right. apply Z.eqb_eq.
      apply Z.mod_divide; [| exact Hd].
      apply Z.pow_nonzero; lia.
Qed.

End Rounding.

(** ** Strings *)

Lemma startsWith_prefix s sub :
  startsWith s sub = true <-> exists post, s = sub ++ post.
Proof.
  revert s. induction sub as [| a sub IH]; intro s.
  - destruct s; simpl; split; eauto.
  - destruct s as [| b s]; simpl.
    + split; [discriminate | intros [post H]; discriminate H].
    + rewrite andb_true_iff, Ascii.eqb_eq, IH. split.
      * intros [-> [post ->]]. now exists post.
      * intros [post H]. injection H as -> ->. split; [reflexivity | now exists post].
Qed.

Lemma includes_substring s sub :
  includes s sub = true <-> is_substring sub s.
Proof.
  unfold is_substring. induction s as [| b s IH].
  - cbn [includes]. rewrite orb_false_r, startsWith_prefix. split.
    + intros [post H]. now exists [], post.
    + intros (pre & post & H). destruct pre; [now exists post |]. discriminate H.
  - cbn [includes]. rewrite orb_true_iff, startsWith_prefix, IH. split.
    + intros [[post H] | (pre & post & H)].
      * now exists [], post.
      * exists (b :: pre), post. now rewrite H.
    + intros (pre & post & H). destruct pre as [| a pre].
      * left. now exists post.
      * right. injection H as _ H. now exists pre, post.
Qed.

Lemma includes_nil s : includes s [] = true.
Proof. destruct s; reflexivity. Qed.

Lemma lower_char_h c :
  Ascii.eqb "h" (lower_char c) = Ascii.eqb "h" c || Ascii.eqb "H" c.
Proof. destruct c as [[] [] [] [] [] [] [] []]; reflexivity. Qed.

Lemma lower_char_digit c : is_digit (lower_char c) = is_digit c.
Proof. destruct c as [[] [] [] [] [] [] [] []]; reflexivity. Qed.

Lemma lower_char_of_digit c : is_digit c = true -> lower_char c = c.
Proof. destruct c as [[] [] [] [] [] [] [] []]; (reflexivity || discriminate). Qed.

Lemma includes_h_iff s :
  includes (toLowerCase s) (js "h") = true <-> contains_letter_h s.
Proof.
  unfold contains_letter_h. induction s as [| b s IH].
  - split; [discriminate | intros (c & [] & _)].
  - change (toLowerCase (b :: s)) with (lower_char b :: toLowerCase s).
    change (js "h") with ["h"%char] in *.
    cbn [includes startsWith]. rewrite andb_true_r, orb_true_iff, IH, lower_char_h.
    rewrite orb_true_iff, !Ascii.eqb_eq. split.
    + intros [[H | H] | (c & Hin & Hc)].
      * exists b. split; [now left | now left].
      * exists b. split; [now left | now right].
      * exists c. split; [now right | exact Hc].
    + intros (c & [-> | Hin] & Hc).
      * left. destruct Hc as [-> | ->]; auto.
      * right. now exists c.
Qed.

Lemma filter_digit_toLowerCase s :
  filter is_digit (toLowerCase s) = filter is_digit s.
Proof.
  induction s as [| b s IH]; [reflexivity |].
  change (toLowerCase (b :: s)) with (lower_char b :: toLowerCase s).
  cbn [filter]. rewrite lower_char_digit, IH.
  destruct (is_digit b) eqn:E; [| reflexivity].
  now rewrite lower_char_of_digit.
Qed.

Lemma forallb_filter (p : ascii -> bool) s : forallb p (filter p s) = true.
Proof.
  induction s as [| b s IH]; [reflexivity |]. simpl.
  destruct (p b) eqn:E; [simpl; now rewrite E | exact IH].
Qed.

Lemma replace_loop_non_digit fuel s :
  length s < fuel ->
  replace_loop fuel non_digit_pattern [] s = filter is_digit s.
Proof.
  revert s. induction fuel as [| fuel IH]; intros s Hlen; [lia |].
  destruct s as [| b s]; [reflexivity |].
  cbn [replace_loop]. unfold match_here, non_digit_pattern.
  cbn [rmatch filter]. unfold not_digit.
  simpl in Hlen.
  destruct (is_digit b); cbn [negb].
  - rewrite IH by lia. reflexivity.
  - replace (length s <? length (b :: s)) with true
      by (symmetry; apply Nat.ltb_lt; simpl; lia).
    rewrite IH by lia. reflexivity.
Qed.

Lemma String_replace_all_non_digit s :
  String_replace_all s non_digit_pattern [] = filter is_digit s.
Proof. apply replace_loop_non_digit. lia. Qed.

(** ** The matcher on the patterns of the source *)

Section CharacterClass.

(** A character class, and the loop of a quantifier over it. *)
Variable p : ascii -> bool.

Lemma take_drop_while s : take_while p s ++ drop_while p s = s.
Proof.
  induction s as [| b s IH]; simpl; [reflexivity |].
  destruct (p b); simpl; [now rewrite IH | reflexivity].
Qed.

Lemma take_while_all s : forallb p (take_while p s) = true.
Proof.
  induction s as [| b s IH]; simpl; [reflexivity |].
  destruct (p b) eqn:E; simpl; [now rewrite E | reflexivity].
Qed.

Lemma drop_while_head s b t : drop_while p s = b :: t -> p b = false.
Proof.
  induction s as [| a s IH]; simpl; [discriminate |].
  destruct (p a) eqn:E; [exact IH | intro H; injection H as -> _; exact E].
Qed.

Lemma length_drop_while s : length (drop_while p s) <= length s.
Proof.
  induction s as [| b s IH]; simpl; [lia |].
  destruct (p b); simpl; lia.
Qed.

Lemma consumed_app (a b : jsstring) : consumed (a ++ b) b = a.
Proof.
  unfold consumed. rewrite length_app.
  replace (length a + length b - length b) with (length a) by lia.
  rewrite firstn_app, Nat.sub_diag, firstn_all. simpl. apply app_nil_r.
Qed.

Lemma repeat_matcher_class max s c k :
  length s <= max ->
  repeat_matcher (class_matcher p) max s c k = greedy p s c k.
Proof.
  revert s. induction max as [| max IH]; intros s Hlen.
  - destruct s; [reflexivity | simpl in Hlen; lia].
  - destruct s as [| b s]; [reflexivity |].
    simpl in Hlen. cbn [repeat_matcher greedy].
    unfold class_matcher at 1. cbn [rmatch].
    destruct (p b); [| reflexivity].
    replace (length s <? length (b :: s)) with true
      by (symmetry; apply Nat.ltb_lt; simpl; lia).
    rewrite IH by lia. reflexivity.
Qed.

Lemma rmatch_star_class s c k :
  rmatch (Star (Class p)) s c k = greedy p s c k.
Proof.
  cbn [rmatch]. apply (repeat_matcher_class (length s) s c k). lia.
Qed.

Lemma rmatch_plus_class s c k :
  rmatch (Plus (Class p)) s c k =
  match s with
  | b :: s' => if p b then greedy p s' c k else None
  | [] => None
  end.
Proof.
  unfold Plus. cbn [rmatch]. destruct s as [| b s]; [reflexivity |].
  destruct (p b); [| reflexivity].
  apply (repeat_matcher_class (length s) s c k). lia.
Qed.

(** The longest iteration wins when the continuation accepts it. *)
Lemma greedy_longest s c k x :
  k (drop_while p s) c = Some x -> greedy p s c k = Some x.
Proof.
  induction s as [| b s IH]; simpl; [auto |].
  destruct (p b); [| auto].
  intro H. now rewrite IH.
Qed.

(** No shorter iteration is tried with success when the continuation
    refuses every text that starts in the class. *)
Lemma greedy_no_backtrack s c (k : cont) :
  (forall b t, p b = true -> k (b :: t) c = None) ->
  greedy p s c k = k (drop_while p s) c.
Proof.
  intro Hk. induction s as [| b s IH]; simpl; [reflexivity |].
  destruct (p b) eqn:E; [| reflexivity].
  rewrite IH, (Hk b s E). now destruct (k (drop_while p s) c).
Qed.

End CharacterClass.

Lemma rmatch_seq r1 r2 s c k :
  rmatch (Seq r1 r2) s c k = rmatch r1 s c (fun s' c' => rmatch r2 s' c' k).
Proof. reflexivity. Qed.

Lemma rmatch_group i r s c k :
  rmatch (Group i r) s c k =
  rmatch r s c (fun s' c' => k s' (set_capture i (consumed s s') c')).
Proof. reflexivity. Qed.

Lemma rmatch_opt r s c k :
  rmatch (Opt r) s c k =
  match rmatch r s (clear_groups r c)
          (fun s' c' => if length s' <? length s then k s' c' else None)
  with
  | Some x => Some x
  | None => k s c
  end.
Proof. reflexivity. Qed.

Lemma rmatch_chr a b s c k :
  rmatch (Chr a) (b :: s) c k = if Ascii.eqb a b then k s c else None.
Proof. reflexivity. Qed.

Lemma rmatch_opt_chr_last a s c :
  rmatch (Opt (Chr a)) s c (fun s' c' => Some (s', c')) = Some (skip_char a s, c).
Proof.
  rewrite rmatch_opt. cbn [rmatch clear_groups groups fold_right].
  destruct s as [| b s]; [reflexivity |]. simpl skip_char.
  destruct (Ascii.eqb a b); [| reflexivity].
  replace (length s <? length (b :: s)) with true
    by (symmetry; apply Nat.ltb_lt; simpl; lia).
  reflexivity.
Qed.

Lemma consumed_cons_drop_while p b s :
  consumed (b :: s) (drop_while p s) = b :: take_while p s.
Proof.
  rewrite <- (take_drop_while p s) at 1.
  apply (consumed_app (b :: take_while p s)).
Qed.

Lemma h_not_digit b : is_digit b = true -> Ascii.eqb "h" b = false.
Proof.
  intro H. destruct (Ascii.eqb "h" b) eqn:E; [| reflexivity].
  apply Ascii.eqb_eq in E. subst b. discriminate H.
Qed.

Lemma match_here_hm s :
  match_here hm_pattern s =
  match hm_here s with
  | Some (hs, ms, rest) => Some (rest, hm_captures hs ms)
  | None => None
  end.
Proof.
  unfold match_here, hm_pattern, hm_here.
  change (no_captures _) with [@None jsstring; None; None].
  rewrite rmatch_seq, rmatch_group, rmatch_plus_class.
  destruct s as [| b s]; [reflexivity |]. cbn [take_while drop_while].
  destruct (is_digit b) eqn:Eb; [| reflexivity].
  rewrite greedy_no_backtrack.
  2:{ intros b' t Hb'. cbn [rmatch]. now rewrite (h_not_digit b' Hb'). }
  rewrite consumed_cons_drop_while. cbn [set_capture].
  destruct (drop_while is_digit s) as [| c r2]; [reflexivity |].
  rewrite rmatch_seq, rmatch_chr.
  destruct (Ascii.eqb "h" c); [| reflexivity].
  rewrite rmatch_seq, rmatch_star_class.
  apply greedy_longest.
  set (r3 := drop_while is_space r2).
  rewrite rmatch_seq, rmatch_opt, rmatch_group, rmatch_plus_class.
  cbn [clear_groups groups Plus app fold_right clear_capture].
  destruct r3 as [| d t]; [reflexivity |]. cbn [take_while drop_while].
  destruct (is_digit d) eqn:Ed.
  - rewrite (greedy_longest _ _ _ _
               (skip_char "m" (drop_while is_digit t),
                hm_captures (b :: take_while is_digit s) (d :: take_while is_digit t))).
    + reflexivity.
    + replace (length (drop_while is_digit t) <? length (d :: t)) with true.
      * rewrite consumed_cons_drop_while. cbn [set_capture].
        apply rmatch_opt_chr_last.
      * symmetry. apply Nat.ltb_lt. pose proof (length_drop_while is_digit t).
        simpl. lia.
  - rewrite rmatch_opt_chr_last. reflexivity.
Qed.

Lemma take_while_app p a b :
  forallb p a = true -> head_is p b = false -> take_while p (a ++ b) = a.
Proof.
  intros Ha Hb. induction a as [| x a IH]; simpl in *.
  - destruct b as [| y b]; simpl in *; [reflexivity | now rewrite Hb].
  - apply andb_prop in Ha. destruct Ha as [-> Ha]. now rewrite IH.
Qed.

Lemma drop_while_app p a b :
  forallb p a = true -> head_is p b = false -> drop_while p (a ++ b) = b.
Proof.
  intros Ha Hb. induction a as [| x a IH]; simpl in *.
  - destruct b as [| y b]; simpl in *; [reflexivity | now rewrite Hb].
  - apply andb_prop in Ha. destruct Ha as [-> Ha]. now rewrite IH.
Qed.

Lemma head_drop_while p s : head_is p (drop_while p s) = false.
Proof.
  destruct (drop_while p s) as [| b t] eqn:E; [reflexivity |].
  simpl. exact (drop_while_head p s b t E).
Qed.


Lemma hm_here_some s hs ms r :
  hm_here s = Some (hs, ms, r) ->
  hs <> [] /\ forallb is_digit hs = true /\ forallb is_digit ms = true /\
  exists t, s = hs ++ "h"%char :: t.
Proof.
  unfold hm_here.
  pose proof (take_drop_while is_digit s) as Hs.
  pose proof (take_while_all is_digit s) as Hd.
  destruct (take_while is_digit s) as [| a hs'] eqn:Et; [discriminate |].
  destruct (drop_while is_digit s) as [| c r2]; [discriminate |].
  destruct (Ascii.eqb "h" c) eqn:Ec; [| discriminate].
  apply Ascii.eqb_eq in Ec. subst c.
  intro H. injection H as <- <- <-.
  repeat split; [discriminate | exact Hd | apply take_while_all |].
  exists r2. symmetry. exact Hs.
Qed.

Lemma hm_scan_some s hs ms r :
  hm_scan s = Some (hs, ms, r) ->
  hs <> [] /\ forallb is_digit hs = true /\ forallb is_digit ms = true.
Proof.
  induction s as [| b s IH]; cbn [hm_scan].
  - discriminate.
  - destruct (hm_here (b :: s)) as [[[? ?] ?] |] eqn:E; [| exact IH].
    intro H. injection H as -> -> ->.
    apply hm_here_some in E. tauto.
Qed.

Lemma exec_from_hm s : forall i,
  match hm_scan s with
  | Some (hs, ms, _) =>
      exists m, exec_from hm_pattern i s = Some m /\
                element m 1 = Some hs /\ element m 2 = optional ms
  | None => exec_from hm_pattern i s = None
  end.
Proof.
  induction s as [| b s IH]; intro i; cbn [hm_scan exec_from];
    rewrite match_here_hm;
    destruct (hm_here _) as [[[hs ms] r] |]; try reflexivity;
    try (eexists; split; [reflexivity | split; reflexivity]).
  apply IH.
Qed.

Lemma StringToNumber_digits s :
  forallb is_digit s = true -> StringToNumber s = of_Z (decimal_value s).
Proof. intro H. unfold StringToNumber. now rewrite H. Qed.

Lemma parseMinutes_hours s :
  includes (toLowerCase s) (js "h") = true ->
  parseMinutes (Str s) =
  match hm_scan (toLowerCase s) with
  | Some (hs, ms, _) => hours_minutes hs ms
  | None => zero
  end.
Proof.
  intro Hh. unfold parseMinutes. rewrite Hh. unfold String_match.
  pose proof (exec_from_hm (toLowerCase s) 0) as He.
  destruct (hm_scan (toLowerCase s)) as [[[hs ms] r] |] eqn:Es.
  - destruct He as (m & -> & H1 & H2).
    apply hm_scan_some in Es. destruct Es as (Hne & Hhs & Hms).
    unfold element_value. rewrite H1, H2. unfold hours_minutes.
    f_equal; [f_equal |].
    + destruct hs as [| a hs]; [congruence |].
      unfold or_else. cbn [truthy Number]. now apply StringToNumber_digits.
    + destruct ms as [| a ms]; [reflexivity |].
      unfold or_else. cbn [optional truthy Number]. now apply StringToNumber_digits.
  - now rewrite He.
Qed.

Lemma hm_here_front hs ws ms tail :
  hs <> [] -> digits hs -> blanks ws -> digits ms ->
  head_is is_space (ms ++ tail) = false -> head_is is_digit tail = false ->
  hm_here (hs ++ "h"%char :: ws ++ ms ++ tail) = Some (hs, ms, skip_char "m" tail).
Proof.
  intros Hne Hhs Hws Hms Hgap Htail. unfold hm_here.
  rewrite (take_while_app is_digit hs), (drop_while_app is_digit hs)
    by (assumption || reflexivity).
  destruct hs as [| a hs]; [congruence |].
  cbn [Ascii.eqb Bool.eqb andb].
  rewrite (drop_while_app is_space ws) by assumption.
  rewrite (take_while_app is_digit ms), (drop_while_app is_digit ms) by assumption.
  reflexivity.
Qed.

Lemma hm_here_hour_start s : hour_start s -> hm_here s <> None.
Proof.
  intros (d & rest & Hne & Hd & ->). unfold hm_here.
  rewrite (take_while_app is_digit d), (drop_while_app is_digit d)
    by (assumption || reflexivity).
  destruct d as [| a d]; [congruence |]. discriminate.
Qed.

Lemma hm_here_hour_start_inv s x : hm_here s = Some x -> hour_start s.
Proof.
  destruct x as [[hs ms] r]. intro H.
  apply hm_here_some in H. destruct H as (Hne & Hd & _ & t & ->).
  now exists hs, t.
Qed.

Lemma hm_scan_shape str pre hs ws ms tail :
  hm_shape str pre hs ws ms tail ->
  hm_scan str = Some (hs, ms, skip_char "m" tail).
Proof.
  intros [-> [Hne Hhs] Hws Hms Hleft Hgap Htail].
  induction pre as [| a pre IH].
  - cbn [app]. 
    assert (H : hm_here (hs ++ "h"%char :: ws ++ ms ++ tail)
                = Some (hs, ms, skip_char "m" tail))
      by now apply hm_here_front.
    destruct hs as [| b hs]; [congruence |].
    cbn [hm_scan app] in *. now rewrite H.
  - cbn [hm_scan app].
    destruct (hm_here (a :: pre ++ hs ++ "h"%char :: ws ++ ms ++ tail)) eqn:E.
    + exfalso. apply (Hleft [] (a :: pre) eq_refl); [discriminate |].
      eapply hm_here_hour_start_inv. exact E.
    + apply IH. intros p1 p2 -> Hp2. apply (Hleft (a :: p1) p2); [reflexivity | exact Hp2].
Qed.

Lemma hm_scan_none str :
  (forall p t, str = p ++ t -> ~ hour_start t) -> hm_scan str = None.
Proof.
  induction str as [| a str IH]; intro H.
  - reflexivity.
  - cbn [hm_scan].
    destruct (hm_here (a :: str)) eqn:E.
    + exfalso. apply (H [] (a :: str) eq_refl).
      eapply hm_here_hour_start_inv. exact E.
    + apply IH. intros p t ->. apply (H (a :: p) t). reflexivity.
Qed.

Lemma hm_here_shape s hs ms r :
  hm_here s = Some (hs, ms, r) ->
  exists ws tail, hm_shape s [] hs ws ms tail /\ r = skip_char "m" tail.
Proof.
  intro H. pose proof (hm_here_some s hs ms r H) as (Hne & Hhs & Hms & _).
  revert H. unfold hm_here.
  pose proof (take_drop_while is_digit s) as Hs.
  destruct (take_while is_digit s) as [| a hs'] eqn:Et; [discriminate |].
  destruct (drop_while is_digit s) as [| c r2]; [discriminate |].
  destruct (Ascii.eqb "h" c) eqn:Ec; [| discriminate].
  apply Ascii.eqb_eq in Ec. subst c.
  intro H. injection H as <- <- <-.
  exists (take_while is_space r2), (drop_while is_digit (drop_while is_space r2)).
  split; [| reflexivity].
  split.
  - rewrite take_drop_while, take_drop_while. symmetry. exact Hs.
  - split; assumption.
  - apply take_while_all.
  - exact Hms.
  - intros p1 p2 Hp Hp2. destruct p1; destruct p2; try discriminate. congruence.
  - rewrite take_drop_while. apply head_drop_while.
  - apply head_drop_while.
Qed.

Lemma hour_start_nil : ~ hour_start [].
Proof.
  intros (d & rest & _ & _ & H). destruct d; discriminate H.
Qed.

(** Every text either has the shape, in exactly one way as far as the
    scanner is concerned, or has no hour marker at all. *)
Lemma hm_shape_or_none str :
  (exists pre hs ws ms tail, hm_shape str pre hs ws ms tail)
  \/ (forall p t, str = p ++ t -> ~ hour_start t).
Proof.
  induction str as [| a str IH].
  - right. intros p t H. destruct p; destruct t; try discriminate.
    apply hour_start_nil.
  - destruct (hm_here (a :: str)) as [[[hs ms] r] |] eqn:E.
    + left. apply hm_here_shape in E. destruct E as (ws & tail & Hsh & _).
      now exists [], hs, ws, ms, tail.
    + assert (Hno : ~ hour_start (a :: str)).
      { intro Hs. now apply hm_here_hour_start in Hs. }
      destruct IH as [(pre & hs & ws & ms & tail & Hsh) | Hnone].
      * left. exists (a :: pre), hs, ws, ms, tail.
        destruct Hsh as [-> Hh Hw Hm Hleft Hg Ht].
        split; try assumption; [reflexivity |].
        intros p1 p2 Hp Hp2. destruct p1 as [| b p1].
        -- cbn [app] in Hp. subst p2. exact Hno.
        -- injection Hp as _ Hp. now apply (Hleft p1 p2).
      * right. intros p t Hp. destruct p as [| b p].
        -- cbn [app] in Hp. subst t. exact Hno.
        -- injection Hp as _ Hp. now apply (Hnone p t).
Qed.

(** ** The two branches of the normalizer *)

Lemma digit_value_range c : is_digit c = true -> (0 <= digit_value c <= 9)%Z.
Proof.
  unfold is_digit, digit_value. rewrite andb_true_iff, !N.leb_le.
  generalize (code c). intros n Hn. lia.
Qed.

Lemma decimal_value_nonneg s : digits s -> (0 <= decimal_value s)%Z.
Proof.
  unfold digits, decimal_value.
  assert (H : forall acc, (0 <= acc)%Z -> forallb is_digit s = true ->
            (0 <= fold_left (fun a c => 10 * a + digit_value c) s acc)%Z).
  { induction s as [| b s IH]; intros acc Hacc Hs; cbn [fold_left forallb] in *;
      [exact Hacc |].
    apply andb_prop in Hs. destruct Hs as [Hb Hs].
    apply IH; [| exact Hs]. pose proof (digit_value_range b Hb). lia. }
  apply H. lia.
Qed.

Lemma of_digits_nonneg_integral s :
  digits s -> nonneg_integral (of_Z (decimal_value s)).
Proof. intro H. apply of_Z_nonneg_integral. now apply decimal_value_nonneg. Qed.

Lemma hours_minutes_nonneg_integral hs ms :
  digits hs -> digits ms -> nonneg_integral (hours_minutes hs ms).
Proof.
  intros Hh Hm. unfold hours_minutes.
  apply add_nonneg_integral.
  - apply mul_60_nonneg_integral. now apply of_digits_nonneg_integral.
  - destruct ms; [reflexivity | now apply of_digits_nonneg_integral].
Qed.

(** Without an [h] the result is the number the digits of the text
    denote. *)
Lemma parseMinutes_digits s :
  includes (toLowerCase s) (js "h") = false ->
  parseMinutes (Str s) = of_Z (decimal_value (filter is_digit s)).
Proof.
  intro Hh. unfold parseMinutes. rewrite Hh.
  rewrite String_replace_all_non_digit, filter_digit_toLowerCase.
  cbn [Number]. rewrite StringToNumber_digits by apply forallb_filter.
  rewrite nonneg_integral_not_nan; [reflexivity |].
  apply of_digits_nonneg_integral. apply forallb_filter.
Qed.

Lemma parseMinutes_text_nonneg_integral s :
  nonneg_integral (parseMinutes (Str s)).
Proof.
  destruct (includes (toLowerCase s) (js "h")) eqn:Hh.
  - rewrite (parseMinutes_hours s Hh).
    destruct (hm_scan (toLowerCase s)) as [[[hs ms] r] |] eqn:Es; [| reflexivity].
    apply hm_scan_some in Es. destruct Es as (_ & Hhs & Hms).
    now apply hours_minutes_nonneg_integral.
  - rewrite (parseMinutes_digits s Hh).
    apply of_digits_nonneg_integral. apply forallb_filter.
Qed.

(** ** Counting records *)

Lemma str_eqb_eq s t : str_eqb s t = true <-> s = t.
Proof.
  revert t. induction s as [| a s IH]; intros [| b t]; simpl;
    try (split; (reflexivity || discriminate)).
  rewrite andb_true_iff, Ascii.eqb_eq, IH. split.
  - intros [-> ->]. reflexivity.
  - intro H. injection H as -> ->. split; reflexivity.
Qed.

Lemma checked_in_not_out row :
  is_checked_in row && is_checked_out row = false.
Proof.
  unfold is_checked_in, is_checked_out.
  destruct (str_eqb (status row) (js "checked_in")) eqn:E; [| reflexivity].
  apply str_eqb_eq in E. rewrite E. reflexivity.
Qed.

Lemma tally_cons p row R :
  tally p (row :: R) = ((if p row then 1 else 0) + tally p R)%Z.
Proof.
  unfold tally. cbn [filter]. destruct (p row); cbn [length]; lia.
Qed.

Lemma tally_insert p R1 row R2 :
  tally p (R1 ++ row :: R2) = (tally p (R1 ++ R2) + (if p row then 1 else 0))%Z.
Proof.
  unfold tally. rewrite !filter_app, !length_app. cbn [filter].
  destruct (p row); cbn [length]; lia.
Qed.

Lemma tally_disjoint p q R :
  (forall row, p row && q row = false) ->
  (tally p R + tally q R <= Z.of_nat (length R))%Z.
Proof.
  intro H. induction R as [| row R IH]; [unfold tally; simpl; lia |].
  rewrite !tally_cons. specialize (H row).
  destruct (p row), (q row); try discriminate; cbn [length]; lia.
Qed.

(** The [reduce] adds, to each counter, the number of records that meet
    the counter's own test. *)
Lemma fold_count_row R : forall acc,
  fold_left count_row R acc =
  {| checkedIn := checkedIn acc + tally is_checked_in R;
     checkedOut := checkedOut acc + tally is_checked_out R;
     notified := notified acc + tally parent_notified R |}.
Proof.
  induction R as [| row R IH]; intro acc.
  - unfold tally. simpl. destruct acc; simpl. f_equal; lia.
  - cbn [fold_left]. rewrite IH, !tally_cons.
    unfold count_row, is_checked_in, is_checked_out.
    destruct (str_eqb (status row) (js "checked_in")),
             (str_eqb (status row) (js "checked_out")),
             (parent_notified row); cbn [checkedIn checkedOut notified];
      f_equal; lia.
Qed.

Lemma status_counts_tally R :
  status_counts R =
  {| checkedIn := tally is_checked_in R;
     checkedOut := tally is_checked_out R;
     notified := tally parent_notified R |}.
Proof. unfold status_counts. rewrite fold_count_row. reflexivity. Qed.

Lemma includes_h_false s :
  ~ contains_letter_h s -> includes (toLowerCase s) (js "h") = false.
Proof.
  intro H. destruct (includes (toLowerCase s) (js "h")) eqn:E; [| reflexivity].
  exfalso. apply H. now apply includes_h_iff.
Qed.

Lemma chart_source_current R : chart_source None [] R = R.
Proof. reflexivity. Qed.

Lemma filter_row_spec search statusSel notifSel row :
  filter_row search statusSel notifSel row = true <->
  matches_search search row /\ matches_status statusSel row
  /\ matches_notified notifSel row.
Proof.
  unfold filter_row, matches_search, matches_status, matches_notified.
  rewrite !andb_true_iff, !orb_true_iff, !andb_true_iff, negb_true_iff.
  rewrite includes_substring, !str_eqb_eq. tauto.
Qed.

(** * The properties of the specification *)

(** ** The duration normalizer *)

(** C1, as stated, fails: the result is not an integer at least 0 for every
    input.  A numeric input is handed back as it is, so [-5] yields [-5]
    and [1.5] yields [1.5]. *)
Lemma parseMinutes_number_counterexample :
  nonneg_integer (parseMinutes (Num (of_Z (-5)))) = false
  /\ nonneg_integer
       (parseMinutes (Num (S754_finite false 6755399441055744 (-52)))) = false.
Proof. split; vm_compute; reflexivity. Qed.

(** C1, amended: an absent input yields 0; a numeric input is returned
    unchanged; a textual input yields a number that is an integer at least
    0, or [+Infinity] when its digits go beyond the range of numbers. *)
Theorem parseMinutes_range (v : jsvalue) :
  match v with
  | Null | Undefined => parseMinutes v = zero
  | Num n => parseMinutes v = n
  | Str s =>
      parseMinutes v = S754_infinity false
      \/ nonneg_integer (parseMinutes v) = true
  end.
Proof.
  destruct v as [| | n | s]; try reflexivity.
  apply nonneg_integral_cases, parseMinutes_text_nonneg_integral.
Qed.

(** C2: the normalizer and the aggregator are total.  Every input has a
    result, which for an absent or textual input is never [NaN]; a text from
    which no duration can be read yields 0; every record list has a summary
    and one point per record. *)
Theorem normalizer_and_aggregator_total :
  (forall v, exists n, parseMinutes v = n
                       /\ ((forall x, v <> Num x) -> isNaN n = false))
  /\ (forall s, unparseable s -> parseMinutes (Str s) = zero)
  /\ (forall R, exists summary points,
         aggregate R = (summary, points) /\ length points = length R).
Proof.
  split; [| split].
  - intro v. exists (parseMinutes v). split; [reflexivity |].
    destruct v as [| | n | s]; intro Hv; try reflexivity.
    + now destruct (Hv n).
    + apply nonneg_integral_not_nan, parseMinutes_text_nonneg_integral.
  - intros s [[Hh Hnone] | [Hh Hnone]].
    + apply includes_h_iff in Hh.
      rewrite (parseMinutes_hours s Hh), (hm_scan_none _ Hnone). reflexivity.
    + rewrite (parseMinutes_digits s (includes_h_false s Hh)), Hnone.
      reflexivity.
  - intro R. eexists. eexists. split; [reflexivity |].
    unfold timeChartData. rewrite chart_source_current. apply length_map.
Qed.

(** The text ["abc"] has no [h] and no digit: it yields 0. *)
Lemma normalizer_and_aggregator_total_witness :
  parseMinutes (Str (js "abc")) = zero.
Proof.
  apply (proj1 (proj2 normalizer_and_aggregator_total)).
  right. split; [| reflexivity].
  intro H. apply includes_h_iff in H. vm_compute in H. discriminate H.
Defined.

(** C3: on a text that holds the letter [h], in either case, the normalizer
    reads the lower-cased text with the pattern
    [<digits>h<white space><digits>m?] and returns [hours * 60 + minutes],
    the minutes counting as 0 when absent; it returns 0 when the text has no
    hour marker; one of the two is always the case.  In particular
    ["1h 30m"] yields 90, ["1h"] 60 and ["2H 5M"] 125. *)
Theorem parseMinutes_hour_pattern :
  (forall s, contains_letter_h s ->
     (forall pre hs ws ms tail,
         hm_shape (toLowerCase s) pre hs ws ms tail ->
         parseMinutes (Str s) = hours_minutes hs ms)
     /\ ((forall p t, toLowerCase s = p ++ t -> ~ hour_start t) ->
         parseMinutes (Str s) = zero)
     /\ ((exists pre hs ws ms tail, hm_shape (toLowerCase s) pre hs ws ms tail)
         \/ (forall p t, toLowerCase s = p ++ t -> ~ hour_start t)))
  /\ parseMinutes (Str (js "1h 30m")) = of_Z 90
  /\ parseMinutes (Str (js "1h")) = of_Z 60
  /\ parseMinutes (Str (js "2H 5M")) = of_Z 125.
Proof.
  split; [| repeat split; vm_compute; reflexivity].
  intros s Hh. apply includes_h_iff in Hh.
  split; [| split].
  - intros pre hs ws ms tail Hshape.
    rewrite (parseMinutes_hours s Hh), (hm_scan_shape _ _ _ _ _ _ Hshape).
    reflexivity.
  - intro Hnone.
    rewrite (parseMinutes_hours s Hh), (hm_scan_none _ Hnone). reflexivity.
  - apply hm_shape_or_none.
Qed.

(** ["1h 30m"] read as hours ["1"], one space, minutes ["30"] and the
    tail ["m"]. *)
Lemma parseMinutes_hour_pattern_witness :
  parseMinutes (Str (js "1h 30m")) = hours_minutes (js "1") (js "30").
Proof.
  assert (Hh : contains_letter_h (js "1h 30m")).
  { exists "h"%char. split; [simpl; tauto | left; reflexivity]. }
  apply (proj1 (proj1 parseMinutes_hour_pattern (js "1h 30m") Hh)
           [] (js "1") (js " ") (js "30") (js "m")).
  split; try reflexivity.
  - split; [discriminate | reflexivity].
  - intros p1 p2 Hp Hp2. destruct p1; destruct p2; try discriminate Hp.
    now elim Hp2.
Defined.

(** C7: an absent input, [null] or [undefined], yields 0.  On a text
    without the letter [h] in either case, the normalizer drops every
    character that is not a digit and returns the number the digits left
    denote, which is 0 when none is left.  In particular ["45 min"] yields
    45, ["abc"] 0 and the empty text 0. *)
Theorem parseMinutes_absent_or_digits :
  parseMinutes Null = zero
  /\ parseMinutes Undefined = zero
  /\ (forall s, ~ contains_letter_h s ->
        parseMinutes (Str s) = of_Z (decimal_value (filter is_digit s))
        /\ (filter is_digit s = [] -> parseMinutes (Str s) = zero))
  /\ parseMinutes (Str (js "45 min")) = of_Z 45
  /\ parseMinutes (Str (js "abc")) = zero
  /\ parseMinutes (Str (js "")) = zero.
Proof.
  split; [reflexivity | split; [reflexivity | split]].
  - intros s Hh. apply includes_h_false in Hh.
    rewrite (parseMinutes_digits s Hh). split; [reflexivity |].
    intros ->. reflexivity.
  - repeat split; vm_compute; reflexivity.
Qed.

(** ["45 min"] has no [h]: its digits are ["45"]. *)
Lemma parseMinutes_absent_or_digits_witness :
  parseMinutes (Str (js "45 min"))
  = of_Z (decimal_value (filter is_digit (js "45 min"))).
Proof.
  assert (Hh : ~ contains_letter_h (js "45 min")).
  { intro H. apply includes_h_iff in H. vm_compute in H. discriminate H. }
  exact (proj1 (proj1 (proj2 (proj2 parseMinutes_absent_or_digits))
                  (js "45 min") Hh)).
Defined.

(** ** The aggregator *)

(** C4: for every record list, the checked-in counter plus the checked-out
    counter of the summary is at most the number of records. *)
Theorem status_counters_bounded (R : list AttendanceRecord) :
  (checkedIn (fst (aggregate R)) + checkedOut (fst (aggregate R))
   <= Z.of_nat (length R))%Z.
Proof.
  unfold aggregate. cbn [fst]. rewrite chart_source_current.
  rewrite status_counts_tally. cbn [checkedIn checkedOut].
  apply tally_disjoint, checked_in_not_out.
Qed.

(** C5: the aggregator yields one point per record, in the order of the
    records: the point at each position carries the student name of the
    record at that position, as it is, and the normalized [time_spent] of
    that record.  Nothing is merged, so records of one student yield one
    point each. *)
Theorem duration_points_follow_records (R : list AttendanceRecord) :
  length (snd (aggregate R)) = length R
  /\ (forall i,
         nth_error (snd (aggregate R)) i
         = option_map
             (fun row => {| Point.name := student_name row;
                            Point.minutes := parseMinutes (time_spent row) |})
             (nth_error R i))
  /\ (forall row, snd (aggregate [row; row])
                  = [duration_point row; duration_point row]).
Proof.
  unfold aggregate, timeChartData. cbn [snd].
  rewrite chart_source_current. split; [apply length_map | split].
  - intro i. apply nth_error_map.
  - intro row. reflexivity.
Qed.

(** C6: the counters of the summary move independently.  A record that is
    checked in and whose parent was notified raises the checked-in and the
    notified counter by one each, in the one step of the pass that handles
    it; a record whose status is neither [checked_in] nor [checked_out]
    leaves both status counters alone, raises the notified counter exactly
    when its parent was notified, and still yields its point. *)
Theorem status_counters_independent
  (R1 R2 : list AttendanceRecord) (row : AttendanceRecord) (acc : counts) :
  let before := fst (aggregate (R1 ++ R2)) in
  let after := fst (aggregate (R1 ++ row :: R2)) in
  (status row = js "checked_in" -> parent_notified row = true ->
   count_row acc row
   = {| checkedIn := checkedIn acc + 1;
        checkedOut := checkedOut acc;
        notified := notified acc + 1 |}
   /\ checkedIn after = (checkedIn before + 1)%Z
   /\ checkedOut after = checkedOut before
   /\ notified after = (notified before + 1)%Z)
  /\ (status row <> js "checked_in" -> status row <> js "checked_out" ->
      checkedIn after = checkedIn before
      /\ checkedOut after = checkedOut before
      /\ notified after
         = (notified before + if parent_notified row then 1 else 0)%Z
      /\ snd (aggregate (R1 ++ row :: R2))
         = snd (aggregate R1) ++ duration_point row :: snd (aggregate R2)).
Proof.
  unfold aggregate, timeChartData. cbn [fst snd].
  rewrite !chart_source_current, !status_counts_tally.
  cbn [checkedIn checkedOut notified]. rewrite !tally_insert.
  unfold count_row, is_checked_in, is_checked_out. split.
  - intros Hs Hn. rewrite Hs, Hn.
    change (str_eqb (js "checked_in") (js "checked_in")) with true.
    change (str_eqb (js "checked_in") (js "checked_out")) with false.
    cbn [checkedIn checkedOut notified].
    repeat split; try reflexivity; lia.
  - intros Hin Hout.
    destruct (str_eqb (status row) (js "checked_in")) eqn:E1;
      [apply str_eqb_eq in E1; contradiction |].
    destruct (str_eqb (status row) (js "checked_out")) eqn:E2;
      [apply str_eqb_eq in E2; contradiction |].
    repeat split; try lia.
    rewrite map_app. reflexivity.
Qed.

(** Ann's record, checked in and notified, put in front of Bo's. *)
Lemma status_counters_independent_witness :
  checkedIn (fst (aggregate ([] ++ Ann :: [Bo])))
  = (checkedIn (fst (aggregate ([] ++ [Bo]))) + 1)%Z
  /\ notified (fst (aggregate ([] ++ Ann :: [Bo])))
     = (notified (fst (aggregate ([] ++ [Bo]))) + 1)%Z.
Proof.
  destruct (proj1 (status_counters_independent [] [Bo] Ann initial_counts)
              eq_refl eq_refl) as (_ & Hin & _ & Hnot).
  split; [exact Hin | exact Hnot].
Defined.

(** C9: the empty record list yields a summary with the three counters at
    0 and no point. *)
Theorem aggregate_empty :
  aggregate [] = ({| checkedIn := 0; checkedOut := 0; notified := 0 |}, []).
Proof. reflexivity. Qed.

(** ** The record filter *)

(** C8: the filter keeps, in their order, exactly the records that meet
    all three tests: the search text occurs in the student name, case
    apart; the status is the selected one, or the selection is ["all"];
    and the notification selection is ["all"], or ["yes"] on a notified
    record, or ["no"] on one that is not.  On the two records of the
    scenario, the selection ["yes"] keeps Ann's record only. *)
Theorem filter_keeps_matching_records :
  (forall records search statusSel notifSel,
      exists keep,
        filteredCurrentRecords records search statusSel notifSel
        = filter keep records
        /\ forall row,
            keep row = true <->
            matches_search search row /\ matches_status statusSel row
            /\ matches_notified notifSel row)
  /\ filteredCurrentRecords [Ann; Bo] (js "") (js "all") (js "yes") = [Ann].
Proof.
  split; [| reflexivity].
  intros records search statusSel notifSel.
  exists (filter_row search statusSel notifSel).
  split; [reflexivity | apply filter_row_spec].
Qed.

(** C10: with an empty search text and both selections at ["all"] the
    filter returns the record list as it is. *)
Theorem filter_all_is_identity (R : list AttendanceRecord) :
  filteredCurrentRecords R (js "") (js "all") (js "all") = R.
Proof.
  unfold filteredCurrentRecords.
  assert (H : forall row, filter_row (js "") (js "all") (js "all") row = true).
  { intro row. unfold filter_row.
    change (toLowerCase (js "")) with (@nil ascii).
    rewrite includes_nil. reflexivity. }
  induction R as [| row R IH]; [reflexivity |].
  cbn [filter]. now rewrite H, IH.
Qed.

(** ** The scenarios of the specification, run *)

Example aggregate_scenario :
  aggregate [Ann; Bo]
  = ({| checkedIn := 1; checkedOut := 1; notified := 1 |},
     [ {| Point.name := js "Ann"; Point.minutes := of_Z 75 |};
       {| Point.name := js "Bo"; Point.minutes := of_Z 30 |} ]).
Proof. vm_compute. reflexivity. Qed.

Example parseMinutes_numbers :
  parseMinutes (Num zero) = zero /\ parseMinutes (Num (of_Z 45)) = of_Z 45.
Proof. split; reflexivity. Qed.

(** A text with an [h] and digits but no hour marker yields 0. *)
Example parseMinutes_hhh :
  parseMinutes (Str (js "hhh")) = zero /\ parseMinutes (Str (js "h5")) = zero.
Proof. split; vm_compute; reflexivity. Qed.

(** Four hundred digits are beyond the range of numbers. *)
Example parseMinutes_overflow :
  parseMinutes (Str (repeat "9"%char 400)) = S754_infinity false.
Proof. vm_compute. reflexivity. Qed.

(** * Further properties of the code *)

(** ** Numbers below [2^53] are exact *)

Section Exact.

Local Open Scope Z_scope.

Lemma digits2_pos_bounds p :
  2 ^ (Zpos (digits2_pos p) - 1) <= Zpos p < 2 ^ Zpos (digits2_pos p).
Proof.
  induction p as [p IH | p IH |]; cbn [digits2_pos].
  - rewrite Pos2Z.inj_succ, (Pos2Z.inj_xI p).
    replace (Z.succ (Zpos (digits2_pos p)) - 1) with (Z.succ (Zpos (digits2_pos p) - 1)) by lia.
    rewrite !Z.pow_succ_r by lia. lia.
  - rewrite Pos2Z.inj_succ, (Pos2Z.inj_xO p).
    replace (Z.succ (Zpos (digits2_pos p)) - 1) with (Z.succ (Zpos (digits2_pos p) - 1)) by lia.
    rewrite !Z.pow_succ_r by lia. lia.
  - simpl. lia.
Qed.

Lemma digits_unique a b x :
  0 < a -> 0 < b ->
  2 ^ (a - 1) <= x < 2 ^ a -> 2 ^ (b - 1) <= x < 2 ^ b -> a = b.
Proof.
  intros Ha Hb Hxa Hxb.
  destruct (Z.lt_trichotomy a b) as [H | [H | H]]; [| exact H |]; exfalso.
  - assert (2 ^ a <= 2 ^ (b - 1)) by (apply Z.pow_le_mono_r; lia). lia.
  - assert (2 ^ b <= 2 ^ (a - 1)) by (apply Z.pow_le_mono_r; lia). lia.
Qed.

Lemma digits2_pos_shift m v k :
  0 <= k -> Zpos m = Zpos v * 2 ^ k ->
  Zpos (digits2_pos m) = Zpos (digits2_pos v) + k.
Proof.
  intros Hk Hm.
  pose proof (digits2_pos_bounds m) as Bm.
  pose proof (digits2_pos_bounds v) as Bv.
  apply (digits_unique _ _ (Zpos m)); try lia.
  rewrite Hm.
  replace (Zpos (digits2_pos v) + k - 1) with (Zpos (digits2_pos v) - 1 + k) by lia.
  rewrite !Z.pow_add_r by lia.
  assert (0 < 2 ^ k) by (apply Z.pow_pos_nonneg; lia).
  split; [apply Z.mul_le_mono_nonneg_r; lia | apply Z.mul_lt_mono_pos_r; lia].
Qed.

Lemma digits2_pos_small v : Zpos v < 2 ^ 53 -> Zpos (digits2_pos v) <= 53.
Proof.
  intro H. pose proof (digits2_pos_bounds v) as B.
  destruct (Z_le_gt_dec (Zpos (digits2_pos v)) 53) as [Hle | Hgt]; [exact Hle |].
  assert (2 ^ 53 <= 2 ^ (Zpos (digits2_pos v) - 1)) by (apply Z.pow_le_mono_r; lia).
  lia.
Qed.
Lemma shr_fexp_keep m e :
  fexp prec emax (Zpos (digits2_pos m) + e) - e <= 0 ->
  shr_fexp prec emax (Zpos m) e loc_Exact = (exact_record (Zpos m), e).
Proof.
  intro H. unfold shr_fexp, shr. cbn [Zdigits2].
  destruct (fexp prec emax (Zpos (digits2_pos m) + e) - e); try reflexivity; lia.
Qed.

Lemma shr_fexp_shift m e n :
  n = fexp prec emax (Zpos (digits2_pos m) + e) - e -> 0 < n ->
  (2 ^ n | Zpos m) ->
  shr_fexp prec emax (Zpos m) e loc_Exact
  = (exact_record (Zpos m / 2 ^ n), e + n).
Proof.
  intros Hn Hpos Hdiv. unfold shr_fexp, shr. cbn [Zdigits2]. rewrite <- Hn.
  destruct n as [| p | p]; try lia.
  change (shr_record_of_loc (Zpos m) loc_Exact) with (exact_record (Zpos m)).
  rewrite iter_pos_nat, iter_shr_1_exact, positive_nat_Z;
    [reflexivity | lia | now rewrite positive_nat_Z].
Qed.

Lemma fexp_small d : 1 <= d <= 53 -> fexp prec emax d = d - 53.
Proof. intro H. unfold fexp, emin, prec, emax. lia. Qed.

Lemma represents_digits m e v :
  represents (Zpos m) e (Zpos v) ->
  Zpos (digits2_pos m) + e = Zpos (digits2_pos v).
Proof.
  intros [[He Hv] | [He Hm]].
  - rewrite (digits2_pos_shift v m e He Hv). reflexivity.
  - rewrite (digits2_pos_shift m v (- e)) by (lia || exact Hm). lia.
Qed.

Lemma binary_round_aux_exact m e v :
  represents (Zpos m) e v -> 0 < v < 2 ^ 53 ->
  exactly (binary_round_aux prec emax false (Zpos m) e loc_Exact) v.
Proof.
  intros Hr Hv. destruct v as [| v | v]; try lia.
  pose proof (represents_digits m e v Hr) as HD.
  pose proof (digits2_pos_small v (proj2 Hv)) as Hsmall.
  assert (Hf : fexp prec emax (Zpos (digits2_pos m) + e)
               = Zpos (digits2_pos v) - 53)
    by (rewrite HD; apply fexp_small; lia).
  unfold binary_round_aux.
  destruct (Z_le_gt_dec (Zpos (digits2_pos v) - 53 - e) 0) as [Hle | Hgt].
  - rewrite shr_fexp_keep by (rewrite Hf; exact Hle).
    cbn [shr_m exact_record loc_of_shr_record round_nearest_even].
    rewrite shr_fexp_keep by (rewrite Hf; exact Hle).
    cbn [shr_m exact_record].
    replace (e <=? emax - prec) with true; [split; [reflexivity | exact Hr] |].
    symmetry. apply Z.leb_le. unfold emax, prec.
    pose proof (Pos2Z.is_pos (digits2_pos m)). lia.
  - set (n := Zpos (digits2_pos v) - 53 - e) in *.
    destruct Hr as [[He _] | [He Hm]]; [lia |].
    assert (Hsplit : 2 ^ (- e) = 2 ^ (- e - n) * 2 ^ n).
    { rewrite <- Z.pow_add_r by lia. f_equal. lia. }
    assert (Hq : Zpos m / 2 ^ n = Zpos v * 2 ^ (- e - n)).
    { rewrite Hm, Hsplit, Z.mul_assoc, Z.div_mul; [reflexivity |].
      apply Z.pow_nonzero; lia. }
    rewrite (shr_fexp_shift m e n); [| rewrite Hf; reflexivity | lia |].
    2:{ exists (Zpos v * 2 ^ (- e - n)). rewrite Hm, Hsplit. ring. }
    cbn [shr_m exact_record loc_of_shr_record round_nearest_even].
    assert (Hpos : 0 < Zpos m / 2 ^ n).
    { rewrite Hq. apply Z.mul_pos_pos; [lia | apply Z.pow_pos_nonneg; lia]. }
    destruct (Zpos m / 2 ^ n) as [| q | q] eqn:Eq; try lia.
    assert (Hdq : Zpos (digits2_pos q) = 53).
    { rewrite (digits2_pos_shift q v (- e - n)) by (lia || exact Hq). lia. }
    rewrite shr_fexp_keep.
    2:{ rewrite Hdq. replace (53 + (e + n)) with (Zpos (digits2_pos v)) by lia.
        rewrite fexp_small by lia. lia. }
    cbn [shr_m exact_record].
    replace (e + n <=? emax - prec) with true
      by (symmetry; apply Z.leb_le; unfold emax, prec; lia).
    split; [reflexivity |].
    destruct (Z_le_gt_dec 0 (e + n)) as [H0 | H0].
    + left. split; [exact H0 |]. rewrite Hq.
      replace (- e - n) with 0 by lia. replace (e + n) with 0 by lia. ring.
    + right. split; [lia |]. rewrite Hq. f_equal. f_equal. lia.
Qed.

Lemma shl_align_represents m e e' v :
  represents (Zpos m) e v ->
  represents (Zpos (fst (shl_align m e e'))) (snd (shl_align m e e')) v.
Proof.
  intro Hr. unfold shl_align.
  destruct (e' - e) as [| d | d] eqn:Hd; cbn [fst snd]; try exact Hr.
  change (Pos.iter xO m d) with (shift_pos d m).
  assert (He : e' = e - Zpos d) by lia. clear Hd.
  rewrite shift_pos_correct. change (Zpower_pos 2 d) with (2 ^ Zpos d).
  destruct (Z_le_gt_dec 0 e') as [Hle | Hgt].
  - left. split; [exact Hle |].
    destruct Hr as [[H0 Hv] | [H0 _]]; [| lia].
    rewrite Hv. replace e with (Zpos d + e') at 1 by lia.
    rewrite Z.pow_add_r by lia. ring.
  - right. split; [lia |].
    destruct Hr as [[H0 Hv] | [H0 Hm]].
    + rewrite Hv. replace (Zpos d) with (e + - e') at 1 by lia.
      rewrite Z.pow_add_r by lia. ring.
    + rewrite Hm. replace (- e') with (Zpos d + - e) by lia.
      rewrite Z.pow_add_r by lia. ring.
Qed.

Lemma binary_round_exact m e v :
  represents (Zpos m) e v -> 0 < v < 2 ^ 53 ->
  exactly (binary_round prec emax false m e) v.
Proof.
  intros Hr Hv. unfold binary_round.
  pose proof (shl_align_represents m e
                (fexp prec emax (Zpos (digits2_pos m) + e)) v Hr) as H.
  destruct (shl_align m e (fexp prec emax (Zpos (digits2_pos m) + e)))
    as [mz ez].
  now apply binary_round_aux_exact.
Qed.

Lemma of_Z_exactly v : 0 <= v < 2 ^ 53 -> exactly (of_Z v) v.
Proof.
  intro Hv. unfold of_Z, binary_normalize.
  destruct v as [| p | p]; [split; reflexivity | | lia].
  apply binary_round_exact; [| lia].
  left. split; [lia | ring].
Qed.

Lemma to_Z_exactly x v : exactly x v -> to_Z x = Some v.
Proof.
  destruct x as [s | s | | s m e]; cbn [exactly to_Z]; try tauto.
  - intros [_ ->]. reflexivity.
  - intros [-> [[He Hv] | [He Hm]]]; cbn [cond_Zopp].
    + replace (0 <=? e) with true by (symmetry; now apply Z.leb_le).
      now rewrite Hv.
    + replace (0 <=? e) with false by (symmetry; apply Z.leb_gt; lia).
      assert (Hnz : 2 ^ (- e) <> 0) by (apply Z.pow_nonzero; lia).
      rewrite Hm, Z.mod_mul, Z.div_mul by exact Hnz. reflexivity.
Qed.
Lemma represents_pos m e v : represents (Zpos m) e v -> 0 < v.
Proof.
  intros [[He ->] | [He Hm]].
  - apply Z.mul_pos_pos; [lia | apply Z.pow_pos_nonneg; lia].
  - assert (0 < 2 ^ (- e)) by (apply Z.pow_pos_nonneg; lia).
    destruct v as [| v | v]; [lia | lia |].
    exfalso. pose proof (Pos2Z.is_pos m). 
    assert (Z.neg v * 2 ^ (- e) < 0) by (apply Z.mul_neg_pos; lia). lia.
Qed.

Lemma exactly_nonneg x v : exactly x v -> 0 <= v.
Proof.
  destruct x as [s | s | | s m e]; cbn [exactly]; try tauto.
  - intros [_ ->]. lia.
  - intros [_ Hr]. apply represents_pos in Hr. lia.
Qed.

Lemma represents_mul m1 e1 v1 m2 e2 v2 :
  represents m1 e1 v1 -> represents m2 e2 v2 ->
  represents (m1 * m2) (e1 + e2) (v1 * v2).
Proof.
  intros [[H1 Hv1] | [H1 Hm1]] [[H2 Hv2] | [H2 Hm2]].
  - left. split; [lia |]. rewrite Hv1, Hv2, Z.pow_add_r by lia. ring.
  - destruct (Z_le_gt_dec 0 (e1 + e2)) as [H | H].
    + left. split; [exact H |]. rewrite Hv1, Hm2.
      replace e1 with (e1 + e2 + - e2) at 1 by lia.
      rewrite Z.pow_add_r by lia. ring.
    + right. split; [lia |]. rewrite Hv1, Hm2.
      replace (- e2) with (e1 + - (e1 + e2)) at 1 by lia.
      rewrite Z.pow_add_r by lia. ring.
  - destruct (Z_le_gt_dec 0 (e1 + e2)) as [H | H].
    + left. split; [exact H |]. rewrite Hv2, Hm1.
      replace e2 with (e1 + e2 + - e1) at 1 by lia.
      rewrite Z.pow_add_r by lia. ring.
    + right. split; [lia |]. rewrite Hv2, Hm1.
      replace (- e1) with (e2 + - (e1 + e2)) at 1 by lia.
      rewrite Z.pow_add_r by lia. ring.
  - right. split; [lia |]. rewrite Hm1, Hm2.
    replace (- (e1 + e2)) with (- e1 + - e2) by lia.
    rewrite Z.pow_add_r by lia. ring.
Qed.

Lemma represents_add m1 m2 e v1 v2 :
  represents m1 e v1 -> represents m2 e v2 ->
  represents (m1 + m2) e (v1 + v2).
Proof.
  intros [[H1 Hv1] | [H1 Hm1]] [[H2 Hv2] | [H2 Hm2]]; try lia.
  - left. split; [exact H1 |]. rewrite Hv1, Hv2. ring.
  - right. split; [exact H1 |]. rewrite Hm1, Hm2. ring.
Qed.

Lemma mul_exactly x y a b :
  exactly x a -> exactly y b -> a * b < 2 ^ 53 -> exactly (mul x y) (a * b).
Proof.
  destruct x as [sx | sx | | sx mx ex]; destruct y as [sy | sy | | sy my ey];
    cbn [exactly]; try tauto.
  - intros [-> ->] [-> ->] _. split; reflexivity.
  - intros [-> ->] [-> _] _. split; reflexivity.
  - intros [-> _] [-> ->] _. split; [reflexivity | ring].
  - intros [-> Hx] [-> Hy] Hlt. unfold mul, SFmul. cbn [xorb].
    rewrite Pos2Z.inj_mul.
    pose proof (represents_pos _ _ _ Hx). pose proof (represents_pos _ _ _ Hy).
    change (Zpos mx * Zpos my) with (Zpos (mx * my)).
    apply binary_round_aux_exact.
    + rewrite Pos2Z.inj_mul. now apply represents_mul.
    + split; [apply Z.mul_pos_pos; lia | exact Hlt].
Qed.

Lemma add_exactly x y a b :
  exactly x a -> exactly y b -> a + b < 2 ^ 53 -> exactly (add x y) (a + b).
Proof.
  destruct x as [sx | sx | | sx mx ex]; destruct y as [sy | sy | | sy my ey];
    cbn [exactly]; try tauto.
  - intros [-> ->] [-> ->] _. split; reflexivity.
  - intros [-> ->] [-> Hy] _. split; [reflexivity | exact Hy].
  - intros [-> Hx] [-> ->] _. split; [reflexivity |].
    now rewrite Z.add_0_r.
  - intros [-> Hx] [-> Hy] Hlt. unfold add, SFadd. cbn [cond_Zopp].
    pose proof (shl_align_represents mx ex (Z.min ex ey) a Hx) as Hx'.
    pose proof (shl_align_represents my ey (Z.min ex ey) b Hy) as Hy'.
    rewrite shl_align_snd_min in Hx'.
    rewrite (Z.min_comm ex ey) in Hy'. rewrite shl_align_snd_min in Hy'.
    rewrite (Z.min_comm ey ex) in Hy'.
    pose proof (represents_pos _ _ _ Hx). pose proof (represents_pos _ _ _ Hy).
    cbn [Z.add binary_normalize].
    apply binary_round_exact; [| lia].
    rewrite Pos2Z.inj_add. now apply represents_add.
Qed.

Lemma hours_minutes_exactly hs ms :
  digits hs -> digits ms ->
  decimal_value hs * 60 + decimal_value ms < 2 ^ 53 ->
  exactly (hours_minutes hs ms) (decimal_value hs * 60 + decimal_value ms).
Proof.
  intros Hh Hm Hlt.
  pose proof (decimal_value_nonneg hs Hh). pose proof (decimal_value_nonneg ms Hm).
  unfold hours_minutes. apply add_exactly; [| | exact Hlt].
  - apply mul_exactly; [apply of_Z_exactly; lia | apply of_Z_exactly; lia | lia].
  - destruct ms as [| c ms]; [split; reflexivity | apply of_Z_exactly; lia].
Qed.
End Exact.

(** ** Reading the CSV export back *)

Lemma replace_loop_quote fuel s :
  length s < fuel ->
  replace_loop fuel quote_pattern [dquote; dquote] s = double_quotes s.
Proof.
  revert s. induction fuel as [| fuel IH]; intros s Hlen; [lia |].
  destruct s as [| b s]; [reflexivity |].
  cbn [replace_loop]. unfold match_here, quote_pattern.
  cbn [rmatch double_quotes flat_map]. simpl in Hlen.
  destruct (Ascii.eqb dquote b).
  - replace (length s <? length (b :: s)) with true
      by (symmetry; apply Nat.ltb_lt; simpl; lia).
    rewrite IH by lia. reflexivity.
  - rewrite IH by lia. reflexivity.
Qed.

Lemma csv_cell_quoted fmt v :
  csv_cell fmt v = dquote :: double_quotes (ToString fmt v) ++ [dquote].
Proof.
  unfold csv_cell, String_replace_all.
  rewrite replace_loop_quote by lia. reflexivity.
Qed.

Lemma read_quoted_body f : forall rest acc row rows,
  read_csv_from (double_quotes f ++ dquote :: rest) Quoted acc row rows
  = read_csv_from rest AfterQuote (rev f ++ acc) row rows.
Proof.
  induction f as [| c f IH]; intros rest acc row rows; [reflexivity |].
  cbn [double_quotes flat_map rev]. fold (double_quotes f).
  rewrite <- !app_assoc.
  destruct (Ascii.eqb dquote c) eqn:E.
  - apply Ascii.eqb_eq in E. subst c.
    cbn [app read_csv_from]. change (Ascii.eqb dquote dquote) with true.
    cbn iota. rewrite IH. reflexivity.
  - cbn [app read_csv_from]. rewrite Ascii.eqb_sym, E. rewrite IH. reflexivity.
Qed.

Lemma read_cell fmt v rest row rows :
  read_csv_from (csv_cell fmt v ++ rest) FieldStart [] row rows
  = read_csv_from rest AfterQuote (rev (ToString fmt v)) row rows.
Proof.
  rewrite csv_cell_quoted. cbn [app]. rewrite <- app_assoc.
  cbn [read_csv_from]. change (Ascii.eqb dquote comma) with false.
  change (Ascii.eqb dquote newline) with false.
  change (Ascii.eqb dquote dquote) with true. cbn iota.
  change ([dquote] ++ rest) with (dquote :: rest).
  rewrite read_quoted_body, app_nil_r. reflexivity.
Qed.

Lemma join_cons sep x y a :
  join sep (x :: y :: a) = x ++ sep ++ join sep (y :: a).
Proof. reflexivity. Qed.

Section CsvReader.

Variable fmt : number -> jsstring.

Lemma read_line init : forall lst rest row rows,
  read_csv_from (csv_line fmt (init ++ [lst]) ++ rest) FieldStart [] row rows
  = read_csv_from rest AfterQuote (rev (ToString fmt lst))
      (rev (map (ToString fmt) init) ++ row) rows.
Proof.
  induction init as [| v init IH]; intros lst rest row rows.
  - apply read_cell.
  - unfold csv_line in *.
    assert (Hc : exists y a, map (csv_cell fmt) (init ++ [lst]) = y :: a).
    { destruct init; simpl; eauto. }
    destruct Hc as (y & a & Hc).
    cbn [app map]. rewrite Hc, join_cons, <- Hc, <- !app_assoc, read_cell.
    cbn [app read_csv_from].
    change (Ascii.eqb comma dquote) with false.
    change (Ascii.eqb comma comma) with true. cbn iota.
    unfold end_field. rewrite rev_involutive, IH.
    cbn [rev]. rewrite <- app_assoc. reflexivity.
Qed.

Lemma end_record_line lst init rows :
  end_record (rev (ToString fmt lst)) (rev (map (ToString fmt) init) ++ []) rows
  = map (ToString fmt) (init ++ [lst]) :: rows.
Proof.
  unfold end_record, end_field.
  rewrite app_nil_r, rev_involutive. cbn [rev].
  rewrite rev_involutive, map_app. reflexivity.
Qed.

Lemma read_lines lines :
  lines <> [] -> Forall (fun l => l <> []) lines ->
  forall rows,
    read_csv_from (join [newline] (map (csv_line fmt) lines)) FieldStart [] [] rows
    = Some (rev rows ++ map (map (ToString fmt)) lines).
Proof.
  induction lines as [| l lines IH]; intros Hne Hall rows; [congruence |].
  inversion Hall as [| ? ? Hl Hrest]; subst.
  destruct (exists_last Hl) as (init & lst & ->).
  destruct lines as [| l2 lines].
  - cbn [map join]. rewrite <- (app_nil_r (csv_line fmt (init ++ [lst]))).
    rewrite read_line. cbn [read_csv_from].
    rewrite end_record_line. reflexivity.
  - cbn [map]. rewrite join_cons, read_line.
    cbn [app read_csv_from].
    change (Ascii.eqb newline dquote) with false.
    change (Ascii.eqb newline comma) with false.
    change (Ascii.eqb newline newline) with true. cbn iota.
    rewrite end_record_line.
    change (csv_line fmt l2 :: map (csv_line fmt) lines)
      with (map (csv_line fmt) (l2 :: lines)).
    rewrite IH by (discriminate || assumption).
    cbn [rev map]. rewrite <- app_assoc. reflexivity.
Qed.

End CsvReader.

(** ** Filtering and counting *)



Lemma tally_filter_le p q R : (tally p (filter q R) <= tally p R)%Z.
Proof.
  induction R as [| row R IH]; [unfold tally; simpl; lia |].
  cbn [filter]. destruct (q row); rewrite !tally_cons; destruct (p row); lia.
Qed.

Lemma tally_nonneg p R : (0 <= tally p R <= Z.of_nat (length R))%Z.
Proof. unfold tally. pose proof (filter_length_le p R). lia. Qed.

Lemma filter_narrow (A : Type) (f g : A -> bool) (l : list A) :
  (forall x, g x = true -> f x = true) ->
  filter g (filter f l) = filter g l.
Proof.
  intro H. induction l as [| x l IH]; [reflexivity |].
  cbn [filter]. destruct (f x) eqn:Ef.
  - cbn [filter]. now rewrite IH.
  - destruct (g x) eqn:Eg; [| exact IH].
    rewrite (H x Eg) in Ef. discriminate Ef.
Qed.

Lemma is_substring_trans a b c :
  is_substring a b -> is_substring b c -> is_substring a c.
Proof.
  intros (p1 & q1 & ->) (p2 & q2 & ->).
  exists (p2 ++ p1), (q1 ++ q2). now rewrite <- !app_assoc.
Qed.

Lemma is_substring_toLowerCase a b :
  is_substring a b -> is_substring (toLowerCase a) (toLowerCase b).
Proof.
  intros (p & q & ->). exists (toLowerCase p), (toLowerCase q).
  unfold toLowerCase. now rewrite !map_app.
Qed.

Lemma lower_char_idempotent c : lower_char (lower_char c) = lower_char c.
Proof. destruct c as [[] [] [] [] [] [] [] []]; reflexivity. Qed.

Lemma toLowerCase_idempotent s : toLowerCase (toLowerCase s) = toLowerCase s.
Proof.
  unfold toLowerCase. rewrite map_map. apply map_ext. apply lower_char_idempotent.
Qed.




(** ** The style variables *)

Section ChartStyleProofs.
Import ChartStyle.

Variable L : Type.
Variable config : object (entry L).

Lemma get_set_same (V : Type) (o : object V) k v : get (set o k v) k = Some v.
Proof.
  induction o as [| [k' v'] o IH]; cbn [set get].
  - now rewrite (proj2 (str_eqb_eq k k) eq_refl).
  - destruct (str_eqb k' k) eqn:E; cbn [get]; rewrite E; [reflexivity | exact IH].
Qed.

Lemma get_set_other (V : Type) (o : object V) k k0 v :
  k <> k0 -> get (set o k v) k0 = get o k0.
Proof.
  intro Hne. induction o as [| [k' v'] o IH]; cbn [set get].
  - destruct (str_eqb k k0) eqn:E; [apply str_eqb_eq in E; contradiction | reflexivity].
  - destruct (str_eqb k' k) eqn:E; cbn [get].
    + apply str_eqb_eq in E. subst k'.
      destruct (str_eqb k k0) eqn:E0; [apply str_eqb_eq in E0; contradiction | reflexivity].
    + destruct (str_eqb k' k0); [reflexivity | exact IH].
Qed.

Lemma variable_injective k k0 : variable k = variable k0 -> k = k0.
Proof. unfold variable. apply app_inv_head. Qed.

Lemma style_step_same acc k :
  get (style_step config acc k) (variable k)
  = match configured_color config k with
    | Some c => Some c
    | None => get acc (variable k)
    end.
Proof.
  unfold style_step, configured_color.
  destruct (get config k) as [e |]; [| reflexivity].
  destruct (color e) as [[| c cs] |]; cbn [truthy]; try reflexivity.
  apply get_set_same.
Qed.

Lemma style_step_other acc key name :
  name <> variable key -> get (style_step config acc key) name = get acc name.
Proof.
  intro Hne. unfold style_step.
  destruct (get config key) as [e |]; [| reflexivity].
  destruct (color e) as [[| c cs] |]; cbn [truthy]; try reflexivity.
  apply get_set_other. congruence.
Qed.

Lemma style_fold ks k : forall acc,
  get (fold_left (style_step config) ks acc) (variable k)
  = if existsb (str_eqb k) ks
    then match configured_color config k with
         | Some c => Some c
         | None => get acc (variable k)
         end
    else get acc (variable k).
Proof.
  induction ks as [| key ks IH]; intro acc; [reflexivity |].
  cbn [fold_left existsb]. rewrite IH.
  destruct (str_eqb k key) eqn:E.
  - apply str_eqb_eq in E. subst key. cbn [orb]. rewrite style_step_same.
    destruct (existsb (str_eqb k) ks); destruct (configured_color config k);
      reflexivity.
  - cbn [orb]. rewrite style_step_other; [reflexivity |].
    intro H. apply variable_injective in H. subst key.
    now rewrite (proj2 (str_eqb_eq k k) eq_refl) in E.
Qed.

Lemma get_absent k :
  existsb (str_eqb k) (keys config) = false -> get config k = None.
Proof.
  unfold keys. induction config as [| [k' e] o IH]; [reflexivity |].
  cbn [map fst existsb get]. intro H. apply orb_false_iff in H.
  destruct H as [H1 H2].
  destruct (str_eqb k' k) eqn:E; [| now apply IH].
  apply str_eqb_eq in E. subst k'.
  now rewrite (proj2 (str_eqb_eq k k) eq_refl) in H1.
Qed.

Lemma style_fold_names ks name : forall acc,
  get (fold_left (style_step config) ks acc) name <> None ->
  get acc name <> None \/ exists k, In k ks /\ name = variable k.
Proof.
  induction ks as [| key ks IH]; intros acc H; [now left |].
  cbn [fold_left] in H. apply IH in H. destruct H as [H | (k & Hin & ->)].
  - destruct (list_eq_dec ascii_dec name (variable key)) as [-> | Hne].
    + right. exists key. split; [now left | reflexivity].
    + left. now rewrite style_step_other in H.
  - right. exists k. split; [now right | reflexivity].
Qed.

End ChartStyleProofs.

(** * Further properties, stated *)

(** ** The duration normalizer *)

(** X1: the normalizer does not tell capitals from small letters: a text
    and its lower-case form yield the same number. *)
Theorem parseMinutes_ignores_case (s : jsstring) :
  parseMinutes (Str (toLowerCase s)) = parseMinutes (Str s).
Proof. unfold parseMinutes. now rewrite toLowerCase_idempotent. Qed.

Lemma hm_shape_includes_h str pre hs ws ms tail :
  hm_shape str pre hs ws ms tail -> includes str (js "h") = true.
Proof.
  intros [-> _ _ _ _ _ _]. apply includes_substring.
  exists (pre ++ hs), (ws ++ ms ++ tail). now rewrite <- app_assoc.
Qed.

(** X2: on a text read as hours [hs] and minutes [ms], the result is the
    integer [hours * 60 + minutes] itself, without rounding, as long as
    that integer is below [2^53]. *)
Theorem parseMinutes_exact_hours (s pre hs ws ms tail : jsstring) :
  hm_shape (toLowerCase s) pre hs ws ms tail ->
  (decimal_value hs * 60 + decimal_value ms < 2 ^ 53)%Z ->
  to_Z (parseMinutes (Str s))
  = Some (decimal_value hs * 60 + decimal_value ms)%Z.
Proof.
  intros Hshape Hlt.
  rewrite (parseMinutes_hours s (hm_shape_includes_h _ _ _ _ _ _ Hshape)).
  rewrite (hm_scan_shape _ _ _ _ _ _ Hshape).
  apply to_Z_exactly, hours_minutes_exactly; [| | exact Hlt].
  - apply (shape_hours _ _ _ _ _ _ Hshape).
  - apply (shape_minutes _ _ _ _ _ _ Hshape).
Qed.

(** ["1h 30m"] is exactly 90. *)
Lemma parseMinutes_exact_hours_witness :
  to_Z (parseMinutes (Str (js "1h 30m")))
  = Some (decimal_value (js "1") * 60 + decimal_value (js "30"))%Z.
Proof.
  apply (parseMinutes_exact_hours (js "1h 30m")
           [] (js "1") (js " ") (js "30") (js "m")).
  - split; try reflexivity.
    + split; [discriminate | reflexivity].
    + intros p1 p2 Hp Hp2. destruct p1; destruct p2; try discriminate Hp.
      now elim Hp2.
  - vm_compute. reflexivity.
Defined.

(** X3: on a text without the letter [h], the result is the integer its
    digits denote, without rounding, as long as that integer is below
    [2^53]. *)
Theorem parseMinutes_exact_digits (s : jsstring) :
  ~ contains_letter_h s ->
  (decimal_value (filter is_digit s) < 2 ^ 53)%Z ->
  to_Z (parseMinutes (Str s)) = Some (decimal_value (filter is_digit s)).
Proof.
  intros Hh Hlt. rewrite (parseMinutes_digits s (includes_h_false s Hh)).
  apply to_Z_exactly, of_Z_exactly. split; [| exact Hlt].
  apply decimal_value_nonneg, forallb_filter.
Qed.

(** ["45 min"] is exactly 45. *)
Lemma parseMinutes_exact_digits_witness :
  to_Z (parseMinutes (Str (js "45 min")))
  = Some (decimal_value (filter is_digit (js "45 min"))).
Proof.
  apply parseMinutes_exact_digits.
  - intro H. apply includes_h_iff in H. vm_compute in H. discriminate H.
  - vm_compute. reflexivity.
Defined.

(** ** The CSV export *)

(** X4: the export is offered exactly when a date is selected and the
    history holds a record.  Its file is named after the date, and its text,
    read back as CSV, is the header line followed by one line per record,
    seven fields each, every field as it was: commas, quotes and line
    breaks inside a field do not split or end it. *)
Theorem downloadHistoryCsv_reads_back (numberToString : number -> jsstring)
  (selectedDate : option jsstring) (historyRecords : list AttendanceRecord) :
  match downloadHistoryCsv numberToString selectedDate historyRecords with
  | None =>
      selectedDate = None \/ selectedDate = Some [] \/ historyRecords = []
  | Some d =>
      let table := csv_headers :: map csv_row historyRecords in
      selectedDate <> None /\ selectedDate <> Some [] /\ historyRecords <> []
      /\ Some (filename d)
         = option_map (fun date => js "attendance_" ++ date ++ js ".csv")
                      selectedDate
      /\ read_csv (content d)
         = Some (map (map (ToString numberToString)) table)
      /\ length table = S (length historyRecords)
      /\ Forall (fun line => length line = 7) table
  end.
Proof.
  unfold downloadHistoryCsv.
  destruct selectedDate as [[| c date] |]; [cbn; auto | | cbn; auto].
  destruct historyRecords as [| r records]; [cbn; auto |].
  cbn [truthy negb length Nat.eqb orb content filename option_map].
  repeat split; try discriminate.
  - unfold read_csv, csv_text. rewrite read_lines; [reflexivity | discriminate |].
    constructor; [discriminate |].
    apply Forall_forall. intros l Hin. apply in_map_iff in Hin.
    destruct Hin as (x & <- & _). discriminate.
  - cbn [length]. now rewrite length_map.
  - constructor; [reflexivity |].
    apply Forall_forall. intros l Hin. apply in_map_iff in Hin.
    destruct Hin as (x & <- & _). reflexivity.
Qed.

(** ** The record filter and the charts *)

(** X5: a longer search text narrows the result: when the new search text
    holds the old one, case apart, filtering what the old text kept gives
    what the new text keeps. *)
Theorem search_narrows (R : list AttendanceRecord) (s1 s2 st nf : jsstring) :
  is_substring (toLowerCase s1) (toLowerCase s2) ->
  filteredCurrentRecords (filteredCurrentRecords R s1 st nf) s2 st nf
  = filteredCurrentRecords R s2 st nf.
Proof.
  intro Hsub. unfold filteredCurrentRecords. apply filter_narrow.
  intros row H. apply filter_row_spec in H. destruct H as (Hs & Hst & Hn).
  apply filter_row_spec. repeat split; try assumption.
  unfold matches_search in *.
  eapply is_substring_trans; [exact Hsub | exact Hs].
Qed.

(** The search text ["an"] extended to ["Ann"]. *)
Lemma search_narrows_witness :
  filteredCurrentRecords
    (filteredCurrentRecords [Ann; Bo] (js "an") (js "all") (js "all"))
    (js "Ann") (js "all") (js "all")
  = filteredCurrentRecords [Ann; Bo] (js "Ann") (js "all") (js "all").
Proof.
  apply search_narrows. exists [], (js "n"). reflexivity.
Defined.

(** X6: the search does not tell capitals from small letters in the search
    text. *)
Theorem filter_search_ignores_case (R : list AttendanceRecord)
  (s st nf : jsstring) :
  filteredCurrentRecords R (toLowerCase s) st nf
  = filteredCurrentRecords R s st nf.
Proof.
  unfold filteredCurrentRecords. apply filter_ext. intro row.
  unfold filter_row. now rewrite toLowerCase_idempotent.
Qed.

(** X7: a notification selection other than ["all"], ["yes"] and ["no"]
    keeps no record. *)
Theorem filter_unknown_notified (R : list AttendanceRecord)
  (s st nf : jsstring) :
  nf <> js "all" -> nf <> js "yes" -> nf <> js "no" ->
  filteredCurrentRecords R s st nf = [].
Proof.
  intros Ha Hy Hn. unfold filteredCurrentRecords.
  induction R as [| row R IH]; [reflexivity |].
  cbn [filter]. destruct (filter_row s st nf row) eqn:E; [| exact IH].
  apply filter_row_spec in E. destruct E as (_ & _ & [H | [[H _] | [H _]]]);
    congruence.
Qed.

(** The selection ["maybe"]. *)
Lemma filter_unknown_notified_witness :
  filteredCurrentRecords [Ann; Bo] (js "") (js "all") (js "maybe") = [].
Proof.
  apply filter_unknown_notified; discriminate.
Defined.

(** X8: filtering never raises a counter: each counter of the filtered
    records is at most the counter of all records, and the filtered list
    is no longer than the list. *)
Theorem filtered_counters_le (R : list AttendanceRecord) (s st nf : jsstring) :
  let all := status_counts R in
  let kept := status_counts (filteredCurrentRecords R s st nf) in
  (checkedIn kept <= checkedIn all)%Z
  /\ (checkedOut kept <= checkedOut all)%Z
  /\ (notified kept <= notified all)%Z
  /\ length (filteredCurrentRecords R s st nf) <= length R.
Proof.
  cbn zeta. rewrite !status_counts_tally. cbn [checkedIn checkedOut notified].
  unfold filteredCurrentRecords.
  repeat split; try apply tally_filter_le. apply filter_length_le.
Qed.



(** X10: the status chart always has its three bars, in the order checked
    in, checked out, notified; no bar is below 0, the first two together
    and the third alone are at most the number of records charted. *)
Theorem statusChartData_bars (sel : option jsstring)
  (hist filt : list AttendanceRecord) :
  let n := Z.of_nat (length (chart_source sel hist filt)) in
  exists a b c,
    statusChartData sel hist filt
    = [ {| Bar.name := js "Checked In"; Bar.value := a |};
        {| Bar.name := js "Checked Out"; Bar.value := b |};
        {| Bar.name := js "Notified"; Bar.value := c |} ]
    /\ (0 <= a)%Z /\ (0 <= b)%Z /\ (a + b <= n)%Z /\ (0 <= c <= n)%Z.
Proof.
  cbn zeta. unfold statusChartData. rewrite status_counts_tally.
  cbn [checkedIn checkedOut notified].
  eexists. eexists. eexists. split; [reflexivity |].
  pose proof (tally_nonneg is_checked_in (chart_source sel hist filt)).
  pose proof (tally_nonneg is_checked_out (chart_source sel hist filt)).
  pose proof (tally_nonneg parent_notified (chart_source sel hist filt)).
  pose proof (tally_disjoint is_checked_in is_checked_out
                (chart_source sel hist filt) checked_in_not_out).
  lia.
Qed.

(** ** The chart container *)

(** X11: the style of the container defines the variable [--color-<key>] for
    exactly the keys of the configuration whose color is present and not
    empty, with that color as its value, and defines nothing else. *)
Theorem chart_style_variables (L : Type)
  (config : ChartStyle.object (ChartStyle.entry L)) :
  (forall k, ChartStyle.get (ChartStyle.style config) (ChartStyle.variable k)
             = ChartStyle.configured_color config k)
  /\ (forall name,
         ChartStyle.get (ChartStyle.style config) name <> None ->
         exists k, In k (ChartStyle.keys config)
                   /\ name = ChartStyle.variable k).
Proof.
  split.
  - intro k. unfold ChartStyle.style. rewrite style_fold. cbn [ChartStyle.get].
    destruct (existsb (str_eqb k) (ChartStyle.keys config)) eqn:E.
    + now destruct (ChartStyle.configured_color config k).
    + unfold ChartStyle.configured_color. now rewrite (get_absent _ _ k E).
  - intros name H. unfold ChartStyle.style in H. apply style_fold_names in H.
    destruct H as [H | H]; [now elim H | exact H].
Qed.
